(** * Barter-network QUBO construction (index.py)

    A shallow embedding of [load_config], [TradeNetworkSolver.add_trade_desire],
    [TradeNetworkSolver.build_qubo] and the reporting part of [main], together
    with the properties of the graph-to-QUBO transformation.

    Python dictionaries keep their keys in insertion order, and the program
    iterates over them ([for i in self.G.nodes], [solution.items()]), so a
    dictionary is an association list with the update rule of Python:
    assigning to a key that is present replaces its value where it stands,
    assigning to a new key appends it.  Two dictionaries are equal for Python
    when they hold the same keys with the same values, in any order; that is
    [dict_equiv] below. *)

From Stdlib Require Import List String Ascii ZArith Lia Bool.
Import ListNotations.
Open Scope Z_scope.

Set Implicit Arguments.

(** ** Keys: values compared with Python's [==] *)

Class EqKey (K : Type) := keqb : K -> K -> bool.

Class EqKeyLaws (K : Type) `{EqKey K} :=
  keqb_spec : forall a b : K, reflect (a = b) (keqb a b).

Arguments EqKeyLaws K {_}.

#[export] Instance string_EqKey : EqKey string := String.eqb.

#[export] Instance pair_EqKey {A B : Type} `{EqKey A} `{EqKey B} : EqKey (A * B) :=
  fun p q => keqb (fst p) (fst q) && keqb (snd p) (snd q).

(** ** Insertion-ordered dictionaries *)

Section Dict.
Context {K V : Type} `{EqKey K}.

Definition dict := list (K * V).

Definition dict_keys (d : dict) : list K := map fst d.
Definition dict_values (d : dict) : list V := map snd d.

(** [d.get(k)]: [None] when the key is absent ([d[k]] raises KeyError). *)
Fixpoint dict_get (k : K) (d : dict) : option V :=
  match d with
  | [] => None
  | (k', v) :: d' => if keqb k k' then Some v else dict_get k d'
  end.

(** [k in d] *)
Definition dict_mem (k : K) (d : dict) : bool :=
  match dict_get k d with Some _ => true | None => false end.

(** [d[k] = v] *)
Fixpoint dict_set (k : K) (v : V) (d : dict) : dict :=
  match d with
  | [] => [(k, v)]
  | (k', v') :: d' =>
      if keqb k k' then (k', v) :: d' else (k', v') :: dict_set k v d'
  end.

(** In-place mutation of the object stored under [k] (as in [d[k][x] = y],
    which changes the inner object and leaves the outer keys where they
    are).  Python raises KeyError when [k] is absent; the callers below
    only reach it with [k] present (lemma [add_edge_keys_present]). *)
Fixpoint dict_alter (f : V -> V) (k : K) (d : dict) : dict :=
  match d with
  | [] => []
  | (k', v') :: d' =>
      if keqb k k' then (k', f v') :: d' else (k', v') :: dict_alter f k d'
  end.

(** Python's [d1 == d2] on dictionaries. *)
Definition dict_equiv (d1 d2 : dict) : Prop :=
  forall k, dict_get k d1 = dict_get k d2.

End Dict.

Arguments dict : clear implicits.

(** ** The graph (the part of networkx.Graph the program uses)

    [nx.Graph] keeps an adjacency dictionary of dictionaries: node to
    (neighbour to edge data).  [G.nodes] iterates over its keys,
    [G.neighbors(i)] over the keys of [G[i]], and [G[i][j]] is the data of the
    edge.  The only edge attribute the program ever writes or reads is
    ['weight'], so the edge data is that number; [add_edge] stores one data
    object under both [G[u][v]] and [G[v][u]], and here both hold the
    number it carries.

    A node is a string.  Python orders strings by code point, one after
    the other, a proper prefix coming first; on the bytes of their UTF-8
    encoding that is [String.ltb]. *)

Definition Node := string.
Definition Nbrs := dict Node Z.
Definition Graph := dict Node Nbrs.

Definition empty_graph : Graph := [].

Definition nodes (G : Graph) : list Node := dict_keys G.

(** [if u not in self._node: self._adj[u] = {}] *)
Definition ensure_node (u : Node) (G : Graph) : Graph :=
  if dict_mem u G then G else dict_set u [] G.

(** [G.add_edge(u, v, weight=w)]: both endpoints are added when missing ([u]
    first), then the edge data is stored under [G[u][v]] and [G[v][u]]. *)
Definition add_edge (G : Graph) (u v : Node) (w : Z) : Graph :=
  let G2 := ensure_node v (ensure_node u G) in
  let G3 := dict_alter (dict_set v w) u G2 in
  dict_alter (dict_set u w) v G3.

(** The neighbours of [i], none when [i] is not a node. *)
Definition nbrs_of (G : Graph) (i : Node) : Nbrs :=
  match dict_get i G with Some nb => nb | None => [] end.

Definition add_trade_desire (G : Graph) (owner_has owner_wants : Node) : Graph :=
  add_edge G owner_has owner_wants 1.

(** The graph after a sequence of [add_trade_desire] calls on a new solver. *)
Definition run_from (G : Graph) (calls : list (Node * Node)) : Graph :=
  fold_left (fun g c => add_trade_desire g (fst c) (snd c)) calls G.

Definition run (calls : list (Node * Node)) : Graph := run_from empty_graph calls.

(** ** build_qubo *)

Definition Qubo := dict (Node * Node) Z.

Definition bind {A B : Type} (m : option A) (f : A -> option B) : option B :=
  match m with Some a => f a | None => None end.

Notation "x <- m ;; k" := (bind m (fun x => k))
  (at level 61, m at next level, right associativity).

(** [self.G.neighbors(i)] *)
Definition neighbors (G : Graph) (i : Node) : option (list Node) :=
  option_map dict_keys (dict_get i G).

(** [self.G[i][j]['weight']] *)
Definition weight (G : Graph) (i j : Node) : option Z :=
  nb <- dict_get i G ;; dict_get j nb.

(** [sum(self.G[i][j]['weight'] for j in ...)], accumulating from 0. *)
Fixpoint sum_weights (G : Graph) (i : Node) (js : list Node) (acc : Z) : option Z :=
  match js with
  | [] => Some acc
  | j :: js' => w <- weight G i j ;; sum_weights G i js' (acc + w)
  end.

(** The inner loop: [for j in neighbors(i): if i < j: Q[(i, j)] = 2 * w]. *)
Fixpoint emit_pairs (G : Graph) (i : Node) (js : list Node) (Q : Qubo) : option Qubo :=
  match js with
  | [] => Some Q
  | j :: js' =>
      if (i <? j)%string
      then w <- weight G i j ;; emit_pairs G i js' (dict_set (i, j) (2 * w) Q)
      else emit_pairs G i js' Q
  end.

(** One turn of the outer loop. *)
Definition qubo_node (G : Graph) (Q : Qubo) (i : Node) : option Qubo :=
  js <- neighbors G i ;;
  s <- sum_weights G i js 0 ;;
  js' <- neighbors G i ;;
  emit_pairs G i js' (dict_set (i, i) (- s) Q).

Fixpoint qubo_nodes (G : Graph) (ns : list Node) (Q : Qubo) : option Qubo :=
  match ns with
  | [] => Some Q
  | i :: ns' => Q' <- qubo_node G Q i ;; qubo_nodes G ns' Q'
  end.

(** [{(i, i): 0 for i in self.G.nodes}] *)
Definition init_qubo (G : Graph) : Qubo :=
  fold_left (fun Q i => dict_set (i, i) 0 Q) (nodes G) [].

(** [None] stands for a KeyError; [build_qubo_closed] shows there is none. *)
Definition build_qubo (G : Graph) : option Qubo :=
  qubo_nodes G (nodes G) (init_qubo G).

(** ** The closed form of the QUBO

    What [build_qubo] amounts to on a graph whose dictionaries have distinct
    keys: the linear terms in node order, then the quadratic terms in node
    and neighbour order. *)

Definition sum_Z (l : list Z) : Z := fold_right Z.add 0 l.

Definition weighted_degree (nb : Nbrs) : Z := sum_Z (dict_values nb).

Definition diag_entries (G : Graph) : Qubo :=
  map (fun e => ((fst e, fst e), - weighted_degree (snd e))) G.

Definition pair_entries (i : Node) (nb : Nbrs) : Qubo :=
  map (fun e => ((i, fst e), 2 * snd e))
      (filter (fun e => (i <? fst e)%string) nb).

Definition offdiag_entries (G : Graph) : Qubo :=
  flat_map (fun e => pair_entries (fst e) (snd e)) G.

Definition qubo_closed (G : Graph) : Qubo := diag_entries G ++ offdiag_entries G.

(** The state of [Q] before the outer loop reaches the nodes of [l]. *)
Definition zero_entries (l : Graph) : Qubo := map (fun e => ((fst e, fst e), 0)) l.

(** What [Q.get((a, b))] is, for the QUBO of a graph with distinct keys. *)
Definition qubo_entry (G : Graph) (a b : Node) : option Z :=
  if keqb a b then option_map (fun nb => - weighted_degree nb) (dict_get a G)
  else if (a <? b)%string then option_map (Z.mul 2) (weight G a b)
  else None.

(** [sum(Q.values())] and its linear and quadratic parts. *)
Definition is_diag (e : (Node * Node) * Z) : bool := keqb (fst (fst e)) (snd (fst e)).
Definition sum_values (Q : Qubo) : Z := sum_Z (dict_values Q).
Definition sum_diag (Q : Qubo) : Z := sum_values (filter is_diag Q).
Definition sum_offdiag (Q : Qubo) : Z := sum_values (filter (fun e => negb (is_diag e)) Q).

(** The key under which an unordered pair is stored: smaller endpoint first. *)
Definition ordered_pair (i j : Node) : Node * Node :=
  if (i <? j)%string then (i, j) else (j, i).

(** [Q] holds one quadratic entry for the unordered pair of [i] and [j]: it
    is off the diagonal, stored under the ordered key with coefficient [c],
    and nothing is stored under the reversed key. *)
Definition offdiag_entry_for (Q : Qubo) (i j : Node) (c : Z) : Prop :=
  let k := ordered_pair i j in
  fst k <> snd k /\ dict_get k Q = Some c /\ dict_get (snd k, fst k) Q = None.

(** The entries of [Q] stored under key [k]. *)
Definition entries_at (k : Node * Node) (Q : Qubo) : Qubo :=
  filter (fun e => keqb (fst e) k) Q.

(** ** The methods as computations on [self.G]

    A method body runs on the graph the solver owns: every step receives
    the graph the previous step left and hands on its own, together with a
    value or a KeyError ([None]).  The steps are the operations of
    networkx the two methods call: [G.nodes], [G.neighbors(i)] and
    [G[i][j]['weight']] look the graph up, [G.add_edge] replaces it. *)

Definition Meth (A : Type) : Type := Graph -> option A * Graph.

Definition meth_ret {A : Type} (a : A) : Meth A := fun G => (Some a, G).

Definition meth_bind {A B : Type} (m : Meth A) (f : A -> Meth B) : Meth B :=
  fun G =>
    match m G with
    | (Some a, G') => f a G'
    | (None, G') => (None, G')
    end.

Notation "x <<- m ;; k" := (meth_bind m (fun x => k))
  (at level 61, m at next level, right associativity).

Definition G_nodes : Meth (list Node) := fun G => (Some (nodes G), G).
Definition G_neighbors (i : Node) : Meth (list Node) := fun G => (neighbors G i, G).
Definition G_weight (i j : Node) : Meth Z := fun G => (weight G i j, G).
Definition G_add_edge (u v : Node) (w : Z) : Meth unit :=
  fun G => (Some tt, add_edge G u v w).

(** [add_trade_desire] as a method: its one step writes the graph. *)
Definition add_trade_desire_call (owner_has owner_wants : Node) : Meth unit :=
  G_add_edge owner_has owner_wants 1.

(** [build_qubo] as a method, statement by statement as in the source; [Q]
    is the local dictionary. *)
Fixpoint sum_weights_call (i : Node) (js : list Node) (acc : Z) : Meth Z :=
  match js with
  | [] => meth_ret acc
  | j :: js' => w <<- G_weight i j ;; sum_weights_call i js' (acc + w)
  end.

Fixpoint emit_pairs_call (i : Node) (js : list Node) (Q : Qubo) : Meth Qubo :=
  match js with
  | [] => meth_ret Q
  | j :: js' =>
      if (i <? j)%string
      then w <<- G_weight i j ;; emit_pairs_call i js' (dict_set (i, j) (2 * w) Q)
      else emit_pairs_call i js' Q
  end.

Definition qubo_node_call (Q : Qubo) (i : Node) : Meth Qubo :=
  js <<- G_neighbors i ;;
  s <<- sum_weights_call i js 0 ;;
  js' <<- G_neighbors i ;;
  emit_pairs_call i js' (dict_set (i, i) (- s) Q).

Fixpoint qubo_nodes_call (ns : list Node) (Q : Qubo) : Meth Qubo :=
  match ns with
  | [] => meth_ret Q
  | i :: ns' => Q' <<- qubo_node_call Q i ;; qubo_nodes_call ns' Q'
  end.

Definition build_qubo_call : Meth Qubo :=
  ns0 <<- G_nodes ;;
  let Q := fold_left (fun Q i => dict_set (i, i) 0 Q) ns0 [] in
  ns <<- G_nodes ;;
  qubo_nodes_call ns Q.

(** ** Well-formed graphs

    The invariant of [nx.Graph]: keys are distinct (they are dictionaries)
    and the adjacency is symmetric, with the same weight on both sides. *)

Fixpoint distinctb {K : Type} `{EqKey K} (l : list K) : bool :=
  match l with
  | [] => true
  | k :: l' => negb (existsb (keqb k) l') && distinctb l'
  end.

Definition weight_is (G : Graph) (i j : Node) (w : Z) : bool :=
  match weight G i j with Some w' => Z.eqb w w' | None => false end.

Definition graph_okb (G : Graph) : bool :=
  distinctb (nodes G) &&
  forallb (fun e => distinctb (dict_keys (snd e)) &&
                    forallb (fun n => weight_is G (fst n) (fst e) (snd n)) (snd e)) G.

Definition dicts_ok (G : Graph) : Prop :=
  NoDup (nodes G) /\ forall i nb, dict_get i G = Some nb -> NoDup (dict_keys nb).

Definition symmetric (G : Graph) : Prop :=
  forall i j w, weight G i j = Some w -> weight G j i = Some w.

Definition graph_ok (G : Graph) : Prop := dicts_ok G /\ symmetric G.

Definition self_loop_freeb (G : Graph) : bool :=
  forallb (fun e => negb (dict_mem (fst e) (snd e))) G.

(** The weight of the edge between [i] and [j], 0 when there is none. *)
Definition weight0 (G : Graph) (i j : Node) : Z :=
  match weight G i j with Some w => w | None => 0 end.

(** The total weight of the edges: every unordered pair of distinct nodes
    is counted once, at its ordered representative. *)
Definition total_weight (G : Graph) : Z :=
  sum_Z (map (fun i =>
    sum_Z (map (fun j => if (i <? j)%string then weight0 G i j else 0) (nodes G)))
    (nodes G)).

(** ** The edge set as the calls describe it

    One edge per unordered pair of identifiers, each of weight 1. *)

Definition same_pair (e1 e2 : Node * Node) : bool :=
  keqb e1 e2 || keqb e1 (snd e2, fst e2).

Definition spec_add_edge (E : list (Node * Node)) (e : Node * Node) : list (Node * Node) :=
  if existsb (same_pair e) E then E else E ++ [e].

Definition spec_edges (calls : list (Node * Node)) : list (Node * Node) :=
  fold_left spec_add_edge calls [].

Definition incident (i : Node) (e : Node * Node) : bool :=
  keqb i (fst e) || keqb i (snd e).

Definition incident_weight (calls : list (Node * Node)) (i : Node) : Z :=
  Z.of_nat (List.length (filter (incident i) (spec_edges calls))).

(** The adjacency [G] represents the edge set [E]: the nodes are the
    endpoints, two nodes are adjacent (with weight 1) when [E] has their
    pair, and the weights stored at a node add up to the number of edges of
    [E] at that node. *)
Definition agrees (G : Graph) (E : list (Node * Node)) : Prop :=
  (forall i, In i (nodes G) <-> existsb (incident i) E = true) /\
  (forall i j, weight G i j = if existsb (same_pair (i, j)) E then Some 1 else None) /\
  (forall i, weighted_degree (nbrs_of G i) = Z.of_nat (List.length (filter (incident i) E))).

(** ** Configuration and the top level

    [env] is [os.getenv] once [load_dotenv()] has run.  The annealing service,
    the plotting library and the formatting of the (floating point) energy
    are outside the program: they are the fields of [Services]. *)

Definition Env := string -> option string.

Record Config := mkConfig { token : string; endpoint : string; solver : string }.

Inductive exn :=
| ValueError (msg : string)
| OtherException (msg : string).

Definition getenv (env : Env) (key default : string) : string :=
  match env key with Some v => v | None => default end.

Definition is_empty (s : string) : bool :=
  match s with EmptyString => true | String _ _ => false end.

Definition load_config (env : Env) : exn + Config :=
  match env "DWAVE_TOKEN"%string with
  | None => inl (ValueError "DWAVE_TOKEN not found in .env file")
  | Some dwave_token =>
      if is_empty dwave_token
      then inl (ValueError "DWAVE_TOKEN not found in .env file")
      else inr {| token := dwave_token;
                  endpoint := getenv env "DWAVE_ENDPOINT" "https://cloud.dwavesys.com/sapi";
                  solver := getenv env "DWAVE_SOLVER" "Advantage_system4.1" |}
  end.

(** A sample: variable to bit, in the order the service lists them. *)
Definition Sample := dict Node Z.

Record Services (Energy : Type) := mkServices {
  connect : Config -> option exn;
  first_sample : Config -> Qubo -> nat -> exn + (Sample * Energy);
  savefig : Graph -> Sample -> option exn;
  str_energy : Energy -> string
}.

(** What a run does that can be seen from outside. *)
Inductive event :=
| Print (line : string)
| Connect (c : Config)
| Submit (Q : Qubo) (num_reads : nat)
| SaveFig (path : string).

(** Computations that leave a trace and may raise. *)
Definition M (A : Type) : Type := list event * (exn + A).

Definition ret {A : Type} (a : A) : M A := ([], inr a).
Definition raise {A : Type} (e : exn) : M A := ([], inl e).
Definition emit (ev : event) : M unit := ([ev], inr tt).

Definition mbind {A B : Type} (m : M A) (f : A -> M B) : M B :=
  match m with
  | (t, inl e) => (t, inl e)
  | (t, inr a) => let (t', r) := f a in (t ++ t', r)
  end.

Definition try_except {A : Type} (m : M A) (handler : exn -> M A) : M A :=
  match m with
  | (t, inl e) => let (t', r) := handler e in (t ++ t', r)
  | (t, inr a) => (t, inr a)
  end.

Notation "x <~ m ;; k" := (mbind m (fun x => k))
  (at level 61, m at next level, right associativity).
Notation "m ;;; k" := (mbind m (fun _ => k))
  (at level 61, right associativity).

Definition lift {A : Type} (r : exn + A) : M A := ([], r).
Definition check (r : option exn) : M unit :=
  match r with Some e => raise e | None => ret tt end.

Fixpoint for_each {A : Type} (l : list A) (body : A -> M unit) : M unit :=
  match l with
  | [] => ret tt
  | a :: l' => body a ;;; for_each l' body
  end.

Definition newline : string := String (ascii_of_nat 10) EmptyString.

Open Scope string_scope.

Definition example_trades : list (Node * Node) :=
  [("Alice_Bike", "Bob_Laptop");
   ("Bob_Laptop", "Charlie_Guitar");
   ("Charlie_Guitar", "David_Camera");
   ("David_Camera", "Alice_Bike")].

Section Program.
Context {Energy : Type} (svc : Services Energy).

(** [TradeNetworkSolver(config)]: the solver is its graph, the sampler is
    known by the configuration it was opened with. *)
Definition init (config : Config) : M Graph :=
  emit (Connect config) ;;;
  check (connect svc config) ;;;
  ret empty_graph.

Definition solve (config : Config) (G : Graph) (num_reads : nat) : M (Sample * Energy) :=
  match build_qubo G with
  | None => raise (OtherException "KeyError")
  | Some Q =>
      emit (Submit Q num_reads) ;;;
      lift (first_sample svc config Q num_reads)
  end.

Definition visualize_solution (G : Graph) (solution : Sample) : M unit :=
  check (savefig svc G solution) ;;;
  emit (SaveFig "trade_network_solution.png").

Definition group_label (group : Z) : string :=
  if Z.eqb group 1 then "Trade" else "Keep".

(** Lines 112 to 116 of [main]. *)
Definition print_results (solution : Sample) (energy : Energy) : M unit :=
  emit (Print (newline ++ "Solution found:")) ;;;
  emit (Print "--------------") ;;;
  for_each solution (fun item =>
    emit (Print (fst item ++ ": " ++ group_label (snd item)))) ;;;
  emit (Print (newline ++ "Solution energy: " ++ str_energy svc energy)).

Definition main_body (env : Env) : M unit :=
  config <~ lift (load_config env) ;;
  G <~ init config ;;
  let G := run_from G example_trades in
  r <~ solve config G 1000 ;;
  print_results (fst r) (snd r) ;;;
  visualize_solution G (fst r) ;;;
  emit (Print (newline ++ "Visualization saved as 'trade_network_solution.png'")).

Definition handler (e : exn) : M unit :=
  match e with
  | ValueError msg => emit (Print ("Configuration error: " ++ msg))
  | OtherException msg => emit (Print ("An error occurred: " ++ msg))
  end.

(** The trace of a run of [main]. *)
Definition main (env : Env) : list event :=
  fst (try_except (main_body env) handler).

End Program.


Definition printed (t : list event) : list string :=
  flat_map (fun ev => match ev with Print s => [s] | _ => [] end) t.

Definition cycle4 : Graph :=
  run [("A", "B"); ("B", "C"); ("C", "D"); ("D", "A")].

Definition sampleABCD : Sample := [("A", 1%Z); ("B", 0%Z); ("C", 1%Z); ("D", 0%Z)].

Definition demo_services : Services Z :=
  {| connect := fun _ => None;
     first_sample := fun _ _ _ => inr (sampleABCD, (-4)%Z);
     savefig := fun _ _ => None;
     str_energy := fun e => if Z.eqb e (-4) then "-4.0" else "?" |}.

Definition env_with_token : Env :=
  fun key => if String.eqb key "DWAVE_TOKEN" then Some "secret" else None.

Close Scope string_scope.

(** ** The objective the annealer minimises

    For a QUBO [Q] and an assignment [x] of bits to the variables, the
    energy is the sum of [Q[(a, b)] * x_a * x_b] over the entries of [Q].
    A sample gives the bit of a variable; a variable it does not list
    counts as 0, as in [solution.get(node, 0)]. *)

Definition bit_of (s : Sample) (i : Node) : Z :=
  match dict_get i s with Some b => b | None => 0 end.

Definition bits_okb (s : Sample) : bool :=
  forallb (fun e => Z.eqb (snd e) 0 || Z.eqb (snd e) 1) s.

Definition energy (Q : Qubo) (x : Node -> Z) : Z :=
  sum_Z (map (fun e => snd e * x (fst (fst e)) * x (snd (fst e))) Q).

(** The weight of the edges whose endpoints lie in different groups. *)
Definition cut_weight (G : Graph) (x : Node -> Z) : Z :=
  sum_Z (map (fun i =>
    sum_Z (map (fun j =>
      if (i <? j)%string
      then weight0 G i j * (if Z.eqb (x i) (x j) then 0 else 1)
      else 0) (nodes G)))
    (nodes G)).

(** The weight of the self-loops at the nodes of group 1. *)
Definition loop_weight (G : Graph) (x : Node -> Z) : Z :=
  sum_Z (map (fun i => weight0 G i i * x i) (nodes G)).

(** A sum over all pairs of elements of [N]. *)
Definition sum2 (N : list Node) (f : Node -> Node -> Z) : Z :=
  sum_Z (map (fun i => sum_Z (map (fun j => f i j) N)) N).

(** The weight strictly above the diagonal: [weight0 G i j] for [i < j]. *)
Definition upper (G : Graph) (i j : Node) : Z :=
  if (i <? j)%string then weight0 G i j else 0.

(** ** Call lists *)

(** Every pair of [calls1] is requested, in one direction or the other,
    by [calls2]. *)
Definition covers (calls1 calls2 : list (Node * Node)) : bool :=
  forallb (fun c => existsb (same_pair c) calls2) calls1.

(** The identifiers of the calls in the order they are named, and a list
    without its repetitions (each element where it first occurs). *)
Definition endpoints (calls : list (Node * Node)) : list Node :=
  flat_map (fun c => [fst c; snd c]) calls.

Definition note_first (seen : list Node) (i : Node) : list Node :=
  if existsb (keqb i) seen then seen else seen ++ [i].

Definition first_seen (l : list Node) : list Node := fold_left note_first l [].

(** [i] is an endpoint of one of the calls. *)
Definition mentions (calls : list (Node * Node)) (i : Node) : bool :=
  existsb (incident i) calls.

(** The line printed for one item of the solution. *)
Definition result_line (item : Node * Z) : string :=
  (fst item ++ ": " ++ group_label (snd item))%string.

(** The lines of the report, for a solution and its energy. *)
Definition result_lines {Energy : Type} (svc : Services Energy)
    (solution : Sample) (energy : Energy) : list string :=
  [(newline ++ "Solution found:")%string; "--------------"%string]
  ++ map result_line solution
  ++ [(newline ++ "Solution energy: " ++ str_energy svc energy)%string].

(** The line the two [except] clauses of [main] print for an exception. *)
Definition error_line (e : exn) : string :=
  match e with
  | ValueError msg => ("Configuration error: " ++ msg)%string
  | OtherException msg => ("An error occurred: " ++ msg)%string
  end.

(** Services for the examples: one that refuses the connection, one whose
    submission fails, one whose plot fails. *)
Definition refusing_services : Services Z :=
  {| connect := fun _ => Some (OtherException "no route to host"%string);
     first_sample := fun _ _ _ => inr (sampleABCD, (-4)%Z);
     savefig := fun _ _ => None;
     str_energy := fun _ => "-4.0"%string |}.

Definition failing_services : Services Z :=
  {| connect := fun _ => None;
     first_sample := fun _ _ _ => inl (ValueError "no embedding found"%string);
     savefig := fun _ _ => None;
     str_energy := fun _ => "-4.0"%string |}.

Definition plotless_services : Services Z :=
  {| connect := fun _ => None;
     first_sample := fun _ _ _ => inr (sampleABCD, (-4)%Z);
     savefig := fun _ _ => Some (OtherException "read-only file system"%string);
     str_energy := fun _ => "-4.0"%string |}.

Definition demo_config : Config :=
  {| token := "secret"%string;
     endpoint := "https://cloud.dwavesys.com/sapi"%string;
     solver := "Advantage_system4.1"%string |}.

(** * Properties *)

Close Scope string_scope.
Unset Implicit Arguments.

(** ** Keys *)

#[export] Instance string_EqKeyLaws : EqKeyLaws string.
Proof. exact String.eqb_spec. Qed.

#[export] Instance pair_EqKeyLaws {A B : Type} `{EqKeyLaws A} `{EqKeyLaws B} :
  EqKeyLaws (A * B).
Proof.
  intros [a b] [c d]; unfold keqb, pair_EqKey; simpl.
  destruct (keqb_spec a c), (keqb_spec b d); simpl; constructor; congruence.
Qed.

Section KeyFacts.
Context {K : Type} `{EqKeyLaws K}.

Lemma keqb_refl (k : K) : keqb k k = true.
Proof. destruct (keqb_spec k k); congruence. Qed.

Lemma keqb_eq (a b : K) : keqb a b = true <-> a = b.
Proof. destruct (keqb_spec a b); split; congruence. Qed.

Lemma keqb_neq (a b : K) : keqb a b = false <-> a <> b.
Proof. destruct (keqb_spec a b); split; congruence. Qed.

Lemma keqb_sym (a b : K) : keqb a b = keqb b a.
Proof. destruct (keqb_spec a b), (keqb_spec b a); congruence. Qed.

Lemma existsb_keqb (k : K) (l : list K) : existsb (keqb k) l = true <-> In k l.
Proof.
  rewrite existsb_exists; split.
  - intros (x & Hx & E). apply keqb_eq in E. now subst.
  - intros Hk. exists k. split; [assumption | apply keqb_refl].
Qed.

Lemma distinctb_NoDup (l : list K) : distinctb l = true <-> NoDup l.
Proof.
  induction l as [|k l IH]; simpl.
  - split; [constructor | reflexivity].
  - rewrite andb_true_iff, negb_true_iff, IH. split.
    + intros [Hn Hd]. constructor; [|assumption].
      intro Hin. apply existsb_keqb in Hin. congruence.
    + intros Hnd. inversion Hnd as [|? ? Hn Hd]; subst. split; [|assumption].
      destruct (existsb (keqb k) l) eqn:E; [|reflexivity].
      apply existsb_keqb in E. contradiction.
Qed.
End KeyFacts.

(** ** Dictionaries *)

Section DictFacts.
Context {K V : Type} `{EqKeyLaws K}.
Implicit Types (d : dict K V) (k : K) (v : V).

Lemma dict_get_None d k : dict_get k d = None <-> ~ In k (dict_keys d).
Proof.
  induction d as [|[k' v'] d IH]; simpl.
  - tauto.
  - destruct (keqb_spec k k') as [->|Hne].
    + split; [discriminate | intros Hn; exfalso; apply Hn; now left].
    + rewrite IH. split; [intros Hn [E|Hin]; [congruence | tauto] | tauto].
Qed.

Lemma dict_get_Some_In d k v : dict_get k d = Some v -> In (k, v) d.
Proof.
  induction d as [|[k' v'] d IH]; simpl; [discriminate|].
  destruct (keqb_spec k k') as [->|Hne].
  - intros [= ->]. now left.
  - intros Hg. right. now apply IH.
Qed.

Lemma dict_get_In d k v : NoDup (dict_keys d) -> In (k, v) d -> dict_get k d = Some v.
Proof.
  induction d as [|[k' v'] d IH]; simpl; [tauto|].
  intros Hnd Hin. inversion Hnd as [|? ? Hn Hd]; subst.
  destruct Hin as [[= -> ->]|Hin].
  - now rewrite keqb_refl.
  - destruct (keqb_spec k k') as [->|Hne]; [|now apply IH].
    exfalso. apply Hn. change k' with (fst (k', v)). now apply in_map.
Qed.

Lemma dict_mem_In d k : dict_mem k d = true <-> In k (dict_keys d).
Proof.
  unfold dict_mem. destruct (dict_get k d) eqn:E.
  - split; [intros _ | reflexivity].
    apply dict_get_Some_In in E. change k with (fst (k, v)). now apply in_map.
  - apply dict_get_None in E. split; [discriminate | tauto].
Qed.

Lemma dict_mem_false d k : dict_mem k d = false <-> ~ In k (dict_keys d).
Proof.
  rewrite <- dict_mem_In. destruct (dict_mem k d); split; congruence.
Qed.

Lemma dict_get_app d1 d2 k :
  dict_get k (d1 ++ d2) =
  match dict_get k d1 with Some v => Some v | None => dict_get k d2 end.
Proof.
  induction d1 as [|[k' v'] d1 IH]; simpl; [reflexivity|].
  now destruct (keqb k k').
Qed.

Lemma dict_set_absent d k v : ~ In k (dict_keys d) -> dict_set k v d = d ++ [(k, v)].
Proof.
  induction d as [|[k' v'] d IH]; simpl; [reflexivity|].
  intros Hn. destruct (keqb_spec k k') as [->|Hne]; [tauto|].
  f_equal. apply IH. tauto.
Qed.

Lemma dict_set_present d1 d2 k v0 v :
  ~ In k (dict_keys d1) -> dict_set k v (d1 ++ (k, v0) :: d2) = d1 ++ (k, v) :: d2.
Proof.
  induction d1 as [|[k' v'] d1 IH]; simpl.
  - now rewrite keqb_refl.
  - intros Hn. destruct (keqb_spec k k') as [->|Hne]; [tauto|].
    f_equal. apply IH. tauto.
Qed.

Lemma dict_get_set d k v k' :
  dict_get k' (dict_set k v d) = if keqb k' k then Some v else dict_get k' d.
Proof.
  induction d as [|[k0 v0] d IH]; simpl.
  - reflexivity.
  - destruct (keqb_spec k k0) as [->|Hne]; simpl.
    + now destruct (keqb k' k0).
    + rewrite IH. destruct (keqb_spec k' k0) as [->|Hne'].
      * apply not_eq_sym in Hne. apply keqb_neq in Hne. now rewrite Hne.
      * reflexivity.
Qed.

Lemma dict_keys_set d k v :
  dict_keys (dict_set k v d) = if dict_mem k d then dict_keys d else dict_keys d ++ [k].
Proof.
  unfold dict_mem. induction d as [|[k0 v0] d IH]; simpl; [reflexivity|].
  destruct (keqb_spec k k0) as [->|Hne]; simpl; [reflexivity|].
  rewrite IH. now destruct (dict_get k d).
Qed.

Lemma dict_set_same d k v : dict_get k d = Some v -> dict_set k v d = d.
Proof.
  induction d as [|[k0 v0] d IH]; simpl; [discriminate|].
  destruct (keqb_spec k k0) as [->|Hne].
  - now intros [= ->].
  - intros Hg. f_equal. now apply IH.
Qed.

Lemma dict_set_set d k v v' : dict_set k v (dict_set k v' d) = dict_set k v d.
Proof.
  induction d as [|[k0 v0] d IH]; simpl.
  - now rewrite keqb_refl.
  - destruct (keqb_spec k k0) as [->|Hne]; simpl.
    + now rewrite keqb_refl.
    + apply keqb_neq in Hne. rewrite Hne. now f_equal.
Qed.

Lemma dict_keys_alter d k (f : V -> V) : dict_keys (dict_alter f k d) = dict_keys d.
Proof.
  induction d as [|[k0 v0] d IH]; simpl; [reflexivity|].
  destruct (keqb k k0); simpl; [reflexivity | now f_equal].
Qed.

Lemma dict_get_alter d k (f : V -> V) k' :
  dict_get k' (dict_alter f k d) =
  if keqb k' k then option_map f (dict_get k d) else dict_get k' d.
Proof.
  induction d as [|[k0 v0] d IH]; simpl.
  - now destruct (keqb k' k).
  - destruct (keqb_spec k k0) as [->|Hne]; simpl.
    + now destruct (keqb k' k0).
    + rewrite IH. destruct (keqb_spec k' k0) as [->|Hne'].
      * apply not_eq_sym in Hne. apply keqb_neq in Hne. now rewrite Hne.
      * reflexivity.
Qed.

Lemma dict_alter_id d k (f : V -> V) :
  (forall v, dict_get k d = Some v -> f v = v) -> dict_alter f k d = d.
Proof.
  induction d as [|[k0 v0] d IH]; simpl; [reflexivity|].
  destruct (keqb_spec k k0) as [->|Hne]; intros Hf.
  - now rewrite Hf.
  - f_equal. now apply IH.
Qed.

Lemma NoDup_keys_set d k v : NoDup (dict_keys d) -> NoDup (dict_keys (dict_set k v d)).
Proof.
  intros Hnd. rewrite dict_keys_set. destruct (dict_mem k d) eqn:E; [assumption|].
  apply dict_mem_false in E.
  apply NoDup_app; [assumption | repeat constructor; simpl; tauto |].
  intros x Hx [<-|[]]. contradiction.
Qed.
End DictFacts.

(** ** The string order used by [i < j] *)

Lemma ltb_irrefl (s : string) : (s <? s)%string = false.
Proof.
  unfold String.ltb. pose proof (String.compare_antisym s s) as E.
  destruct (String.compare s s); simpl in E; congruence.
Qed.

Lemma ltb_neq (s t : string) : (s <? t)%string = true -> s <> t.
Proof. intros Hlt ->. rewrite ltb_irrefl in Hlt. discriminate. Qed.

Lemma ltb_asym (s t : string) : (s <? t)%string = true -> (t <? s)%string = false.
Proof.
  unfold String.ltb. rewrite (String.compare_antisym t s).
  destruct (String.compare s t); simpl; congruence.
Qed.

Lemma ltb_total (s t : string) :
  s <> t -> (s <? t)%string = true \/ (t <? s)%string = true.
Proof.
  intros Hne. unfold String.ltb. rewrite (String.compare_antisym t s).
  destruct (String.compare s t) eqn:E; simpl; auto.
  apply String.compare_eq_iff in E. contradiction.
Qed.

(** ** [build_qubo] computes the closed form *)

Implicit Types (G : Graph) (i j : Node) (nb : Nbrs) (Q : Qubo).

Lemma weight_get G i j nb : dict_get i G = Some nb -> weight G i j = dict_get j nb.
Proof. intros Hi. unfold weight. now rewrite Hi. Qed.

Lemma sum_Z_app (l1 l2 : list Z) : sum_Z (l1 ++ l2) = sum_Z l1 + sum_Z l2.
Proof. unfold sum_Z. induction l1; simpl; lia. Qed.

Lemma sum_weights_entries G i nb (l : Nbrs) acc :
  dict_get i G = Some nb ->
  (forall e, In e l -> dict_get (fst e) nb = Some (snd e)) ->
  sum_weights G i (dict_keys l) acc = Some (acc + sum_Z (dict_values l)).
Proof.
  intros Hi. revert acc. induction l as [|[j w] l IH]; simpl; intros acc Hl.
  - f_equal. lia.
  - rewrite (weight_get G i j nb Hi).
    pose proof (Hl (j, w) (or_introl eq_refl)) as Hj. simpl in Hj. rewrite Hj. simpl.
    rewrite IH by (intros e He; apply Hl; now right).
    f_equal. lia.
Qed.

Lemma entries_lookup (nb : Nbrs) :
  NoDup (dict_keys nb) -> forall e, In e nb -> dict_get (fst e) nb = Some (snd e).
Proof. intros Hnd [j w] He. now apply dict_get_In. Qed.

Lemma emit_pairs_entries G i nb (l : Nbrs) (Q : Qubo) :
  dict_get i G = Some nb ->
  (forall e, In e l -> dict_get (fst e) nb = Some (snd e)) ->
  NoDup (dict_keys l) ->
  (forall j, In j (dict_keys l) -> (i <? j)%string = true -> ~ In (i, j) (dict_keys Q)) ->
  emit_pairs G i (dict_keys l) Q = Some (Q ++ pair_entries i l).
Proof.
  intros Hi. revert Q. induction l as [|[j w] l IH]; simpl; intros Q Hl Hnd HQ.
  - now rewrite app_nil_r.
  - inversion Hnd as [|? ? Hj Hnd']; subst.
    unfold pair_entries. simpl. fold (pair_entries i l).
    destruct (i <? j)%string eqn:Hlt.
    + rewrite (weight_get G i j nb Hi).
      pose proof (Hl (j, w) (or_introl eq_refl)) as Hw. simpl in Hw. rewrite Hw. simpl.
      rewrite dict_set_absent by (apply HQ; [now left | assumption]).
      rewrite IH.
      * now rewrite <- app_assoc.
      * intros e He. apply Hl. now right.
      * assumption.
      * intros j' Hj' Hlt'. unfold dict_keys. rewrite map_app, in_app_iff. simpl.
        intros [Hin|[[= <-]|[]]]; [|contradiction].
        apply (HQ j'); [now right | assumption | assumption].
    + apply IH; [intros e He; apply Hl; now right | assumption |].
      intros j' Hj'. apply HQ. now right.
Qed.

Lemma keys_diag_entries (l : Graph) i j :
  In (i, j) (dict_keys (diag_entries l)) -> i = j /\ In i (nodes l).
Proof.
  unfold dict_keys, diag_entries, nodes. rewrite map_map. simpl.
  rewrite in_map_iff. intros ([k nb] & [= <- <-] & Hin). split; [reflexivity|].
  change k with (fst (k, nb)). now apply in_map.
Qed.

Lemma keys_zero_entries (l : Graph) i j :
  In (i, j) (dict_keys (zero_entries l)) -> i = j /\ In i (nodes l).
Proof.
  unfold dict_keys, zero_entries, nodes. rewrite map_map. simpl.
  rewrite in_map_iff. intros ([k nb] & [= <- <-] & Hin). split; [reflexivity|].
  change k with (fst (k, nb)). now apply in_map.
Qed.

Lemma keys_pair_entries i (nb : Nbrs) a b :
  In (a, b) (dict_keys (pair_entries i nb)) ->
  a = i /\ (i <? b)%string = true /\ In b (dict_keys nb).
Proof.
  unfold dict_keys, pair_entries. rewrite map_map. simpl.
  rewrite in_map_iff. intros ([j w] & [= <- <-] & Hin).
  apply filter_In in Hin. destruct Hin as [Hin Hlt]. simpl in Hlt.
  repeat split; [assumption|]. change j with (fst (j, w)). now apply in_map.
Qed.

Lemma keys_offdiag_entries (l : Graph) a b :
  In (a, b) (dict_keys (offdiag_entries l)) ->
  In a (nodes l) /\ (a <? b)%string = true.
Proof.
  unfold offdiag_entries, dict_keys. rewrite in_map_iff.
  intros ([[x y] v] & [= -> ->] & Hin).
  apply in_flat_map in Hin. destruct Hin as ([k nb] & Hk & Hin). simpl in Hin.
  assert (Hkeys : In (a, b) (dict_keys (pair_entries k nb))).
  { change (a, b) with (fst ((a, b), v)). now apply in_map. }
  apply keys_pair_entries in Hkeys. destruct Hkeys as (-> & Hlt & _).
  split; [|assumption]. change k with (fst (k, nb)). now apply in_map.
Qed.

Lemma init_qubo_fold (l : list Node) (Q : Qubo) :
  NoDup l -> (forall i, In i l -> ~ In (i, i) (dict_keys Q)) ->
  fold_left (fun Q i => dict_set (i, i) 0 Q) l Q = Q ++ map (fun i => ((i, i), 0)) l.
Proof.
  revert Q. induction l as [|i l IH]; simpl; intros Q Hnd HQ.
  - now rewrite app_nil_r.
  - inversion Hnd as [|? ? Hi Hnd']; subst.
    rewrite dict_set_absent by (apply HQ; now left).
    rewrite IH; [now rewrite <- app_assoc | assumption |].
    intros j Hj. unfold dict_keys. rewrite map_app, in_app_iff. simpl.
    intros [Hin|[[= <-]|[]]]; [|contradiction].
    apply (HQ j); [now right | assumption].
Qed.

Lemma init_qubo_zero (G : Graph) : NoDup (nodes G) -> init_qubo G = zero_entries G.
Proof.
  intros Hnd. unfold init_qubo. rewrite init_qubo_fold; [|assumption|now intros].
  unfold zero_entries, nodes, dict_keys. simpl. now rewrite map_map.
Qed.

Lemma nodes_app (l1 l2 : Graph) : nodes (l1 ++ l2) = nodes l1 ++ nodes l2.
Proof. apply map_app. Qed.

Lemma qubo_nodes_closed G :
  dicts_ok G ->
  forall todo done : Graph, G = done ++ todo ->
  qubo_nodes G (nodes todo)
    (diag_entries done ++ zero_entries todo ++ offdiag_entries done)
  = Some (qubo_closed G).
Proof.
  intros [Hnd Hnb]. induction todo as [|[i nb] todo IH]; intros done HG.
  - simpl. rewrite app_nil_r in HG. now subst.
  - assert (Hin : In (i, nb) G) by (subst G; apply in_elt).
    assert (Hi : dict_get i G = Some nb) by now apply dict_get_In.
    assert (Hfresh : ~ In i (nodes done)).
    { rewrite HG, nodes_app in Hnd. apply NoDup_remove_2 in Hnd.
      intro Hd. apply Hnd. apply in_or_app. now left. }
    simpl. unfold qubo_node, neighbors. rewrite Hi. simpl.
    assert (Hnbi : NoDup (dict_keys nb)) by now apply (Hnb i).
    rewrite (sum_weights_entries G i nb nb 0 Hi)
      by (now apply entries_lookup).
    simpl.
    rewrite dict_set_present
      by (intro Hk; apply keys_diag_entries in Hk; tauto).
    rewrite (emit_pairs_entries G i nb nb _ Hi).
    + simpl. specialize (IH (done ++ [(i, nb)])).
      rewrite <- app_assoc in IH. specialize (IH HG).
      rewrite <- IH. f_equal.
      unfold diag_entries, offdiag_entries.
      rewrite map_app, flat_map_app. simpl.
      rewrite app_nil_r, <- !app_assoc. simpl. rewrite <- !app_assoc. reflexivity.
    + now apply entries_lookup.
    + assumption.
    + intros j Hj Hlt. unfold dict_keys. rewrite map_app, in_app_iff.
      fold (dict_keys (diag_entries done)). simpl. rewrite map_app, in_app_iff.
      fold (dict_keys (zero_entries todo)) (dict_keys (offdiag_entries done)).
      apply ltb_neq in Hlt.
      intros [Hk|[[= E]|[Hk|Hk]]].
      * apply keys_diag_entries in Hk. tauto.
      * contradiction.
      * apply keys_zero_entries in Hk. tauto.
      * apply keys_offdiag_entries in Hk. tauto.
Qed.

(** [build_qubo] raises no KeyError and returns the closed form. *)
Lemma build_qubo_closed G : dicts_ok G -> build_qubo G = Some (qubo_closed G).
Proof.
  intros Hok. unfold build_qubo. rewrite init_qubo_zero by apply Hok.
  pose proof (qubo_nodes_closed G Hok G [] eq_refl) as E. simpl in E.
  now rewrite app_nil_r in E.
Qed.

(** ** Looking entries up in the closed form *)

#[local] Arguments Z.mul : simpl never.
#[local] Arguments Z.add : simpl never.
#[local] Arguments Z.opp : simpl never.

Lemma keqb_pair (a b c d : Node) : keqb (a, b) (c, d) = keqb a c && keqb b d.
Proof. reflexivity. Qed.

Lemma get_diag_entries_diag (l : Graph) i :
  dict_get (i, i) (diag_entries l) =
  option_map (fun nb => - weighted_degree nb) (dict_get i l).
Proof.
  induction l as [|[k nb] l IH]; simpl; [reflexivity|].
  rewrite keqb_pair, andb_diag. now destruct (keqb i k).
Qed.

Lemma get_diag_entries_off (l : Graph) i j :
  i <> j -> dict_get (i, j) (diag_entries l) = None.
Proof.
  intros Hne. apply dict_get_None. intro Hk.
  apply keys_diag_entries in Hk. tauto.
Qed.

Lemma get_pair_entries i nb a b :
  dict_get (a, b) (pair_entries i nb) =
  if keqb a i && (i <? b)%string then option_map (Z.mul 2) (dict_get b nb) else None.
Proof.
  unfold pair_entries. induction nb as [|[j w] nb IH]; simpl.
  - now destruct (keqb a i && (i <? b)%string).
  - destruct (i <? j)%string eqn:Hlt; simpl.
    + rewrite keqb_pair, IH.
      destruct (keqb_spec a i) as [->|Hne]; simpl; [|reflexivity].
      destruct (keqb_spec b j) as [->|Hne]; [now rewrite Hlt | reflexivity].
    + rewrite IH.
      destruct (keqb_spec a i) as [->|Hne]; simpl; [|reflexivity].
      destruct (keqb_spec b j) as [->|Hne]; [now rewrite Hlt | reflexivity].
Qed.

Lemma get_offdiag_entries (l : Graph) a b :
  NoDup (nodes l) ->
  dict_get (a, b) (offdiag_entries l) =
  if (a <? b)%string then option_map (Z.mul 2) (weight l a b) else None.
Proof.
  unfold weight. induction l as [|[k nb] l IH]; simpl; intros Hnd.
  - now destruct (a <? b)%string.
  - inversion Hnd as [|? ? Hk Hnd']; subst.
    rewrite dict_get_app, get_pair_entries, (IH Hnd').
    destruct (keqb_spec a k) as [->|Hne]; simpl; [|reflexivity].
    destruct (k <? b)%string; [|reflexivity].
    destruct (dict_get b nb) as [w|]; simpl; [reflexivity|].
    apply dict_get_None in Hk. now rewrite Hk.
Qed.

Lemma qubo_closed_lookup G a b :
  NoDup (nodes G) -> dict_get (a, b) (qubo_closed G) = qubo_entry G a b.
Proof.
  intros Hnd. unfold qubo_closed, qubo_entry. rewrite dict_get_app.
  destruct (keqb_spec a b) as [->|Hne].
  - rewrite get_diag_entries_diag.
    destruct (dict_get b G) as [nb|] eqn:E; simpl; [reflexivity|].
    rewrite (get_offdiag_entries G b b Hnd). now rewrite ltb_irrefl.
  - rewrite (get_diag_entries_off G a b Hne). now apply get_offdiag_entries.
Qed.

Lemma NoDup_keys_pair_entries i nb :
  NoDup (dict_keys nb) -> NoDup (dict_keys (pair_entries i nb)).
Proof.
  unfold pair_entries, dict_keys. rewrite map_map. simpl.
  induction nb as [|[j w] nb IH]; simpl; intros Hnd; [constructor|].
  inversion Hnd as [|? ? Hj Hnd']; subst.
  destruct (i <? j)%string; simpl; [|now apply IH].
  constructor; [|now apply IH].
  rewrite in_map_iff. intros ([j' w'] & [= <-] & Hin).
  apply filter_In in Hin. apply Hj.
  change j' with (fst (j', w')). apply in_map. tauto.
Qed.

(** The closed form is a dictionary: no key occurs twice. *)
Lemma NoDup_keys_qubo_closed G : dicts_ok G -> NoDup (dict_keys (qubo_closed G)).
Proof.
  intros [Hnd Hnb]. unfold qubo_closed, dict_keys. rewrite map_app.
  fold (dict_keys (diag_entries G)) (dict_keys (offdiag_entries G)).
  apply NoDup_app.
  - unfold dict_keys, diag_entries. rewrite map_map. simpl.
    unfold nodes, dict_keys in Hnd. clear Hnb.
    induction G as [|[k nb] G IH]; simpl; [constructor|].
    inversion Hnd as [|? ? Hk Hnd']; subst. constructor; [|now apply IH].
    rewrite in_map_iff. intros ([k' nb'] & [= <-] & Hin). apply Hk.
    change k' with (fst (k', nb')). now apply in_map.
  - induction G as [|[k nb] G IH]; simpl; [constructor|].
    inversion Hnd as [|? ? Hk Hnd']; subst.
    unfold offdiag_entries. simpl. fold (offdiag_entries G).
    unfold dict_keys. rewrite map_app.
    fold (dict_keys (pair_entries k nb)) (dict_keys (offdiag_entries G)).
    apply NoDup_app.
    + apply NoDup_keys_pair_entries. apply (Hnb k). simpl. now rewrite keqb_refl.
    + apply IH; [assumption|]. intros i' nb' Hin. apply (Hnb i'). simpl.
      destruct (keqb_spec i' k) as [->|Hne]; [|assumption].
      exfalso. apply Hk. apply dict_get_Some_In in Hin.
      change k with (fst (k, nb')). now apply in_map.
    + intros [a b] Ha Hb. apply keys_pair_entries in Ha.
      apply keys_offdiag_entries in Hb. destruct Ha as [-> _]. tauto.
  - intros [a b] Ha Hb. apply keys_diag_entries in Ha.
    apply keys_offdiag_entries in Hb. destruct Ha as [-> _], Hb as [_ Hlt].
    rewrite ltb_irrefl in Hlt. discriminate.
Qed.

(** ** [add_edge] *)

Lemma get_nbrs_of G i j : dict_get j (nbrs_of G i) = weight G i j.
Proof. unfold nbrs_of, weight. now destruct (dict_get i G). Qed.

Lemma get_ensure_node G u i :
  dict_get i (ensure_node u G) =
  if keqb i u then Some (nbrs_of G u) else dict_get i G.
Proof.
  unfold ensure_node, dict_mem, nbrs_of.
  destruct (dict_get u G) as [nb|] eqn:E.
  - destruct (keqb_spec i u) as [->|Hne]; [assumption | reflexivity].
  - rewrite dict_get_set. destruct (keqb_spec i u) as [->|Hne]; reflexivity.
Qed.

Lemma nodes_ensure_node G u :
  nodes (ensure_node u G) = if dict_mem u G then nodes G else nodes G ++ [u].
Proof.
  unfold ensure_node, nodes. destruct (dict_mem u G) eqn:E; [reflexivity|].
  now rewrite dict_keys_set, E.
Qed.

Lemma NoDup_nodes_ensure G u : NoDup (nodes G) -> NoDup (nodes (ensure_node u G)).
Proof.
  intros Hnd. unfold ensure_node. destruct (dict_mem u G); [assumption|].
  now apply NoDup_keys_set.
Qed.

Lemma nodes_add_edge G u v w :
  nodes (add_edge G u v w) = nodes (ensure_node v (ensure_node u G)).
Proof. unfold add_edge, nodes. now rewrite !dict_keys_alter. Qed.

(** Both endpoints are nodes when their edge data is stored: the two
    assignments of [add_edge] raise no KeyError. *)
Lemma add_edge_keys_present G u v :
  dict_mem u (ensure_node v (ensure_node u G)) = true /\
  dict_mem v (ensure_node v (ensure_node u G)) = true.
Proof.
  unfold dict_mem. rewrite !get_ensure_node, !keqb_refl.
  now destruct (keqb u v).
Qed.

(** The adjacency after [add_edge]. *)
Lemma get_add_edge G u v w i :
  dict_get i (add_edge G u v w) =
  if keqb i u then Some (dict_set v w (nbrs_of G u))
  else if keqb i v then Some (dict_set u w (nbrs_of G v))
  else dict_get i G.
Proof.
  unfold add_edge. rewrite !dict_get_alter, !get_ensure_node, !keqb_refl.
  destruct (keqb_spec i v) as [Hiv|Hiv], (keqb_spec i u) as [Hiu|Hiu]; simpl.
  - subst i. subst v. rewrite keqb_refl. simpl. unfold nbrs_of at 1.
    rewrite get_ensure_node, keqb_refl. now rewrite dict_set_set.
  - subst i. rewrite (keqb_sym u v). apply keqb_neq in Hiu. rewrite Hiu. simpl.
    unfold nbrs_of at 1. rewrite get_ensure_node, Hiu. reflexivity.
  - subst i. apply keqb_neq in Hiv. rewrite Hiv. simpl. reflexivity.
  - reflexivity.
Qed.

Lemma weight_add_edge G u v w i j :
  weight (add_edge G u v w) i j =
  if (keqb i u && keqb j v) || (keqb i v && keqb j u) then Some w else weight G i j.
Proof.
  unfold weight at 1. rewrite get_add_edge.
  destruct (keqb_spec i u) as [->|Hiu]; simpl.
  - rewrite dict_get_set, get_nbrs_of.
    destruct (keqb_spec j v) as [->|Hjv]; simpl; [reflexivity|].
    destruct (keqb_spec u v) as [->|Huv]; simpl; [|reflexivity].
    apply keqb_neq in Hjv. now rewrite Hjv.
  - destruct (keqb_spec i v) as [->|Hiv]; simpl; [|reflexivity].
    rewrite dict_get_set, get_nbrs_of. now destruct (keqb j u).
Qed.

(** ** The graph invariant *)

Lemma NoDup_nbrs_of G i : dicts_ok G -> NoDup (dict_keys (nbrs_of G i)).
Proof.
  intros [_ Hnb]. unfold nbrs_of. destruct (dict_get i G) as [nb|] eqn:E.
  - now apply (Hnb i).
  - constructor.
Qed.

Lemma dicts_ok_add_edge G u v w : dicts_ok G -> dicts_ok (add_edge G u v w).
Proof.
  intros Hok. split.
  - rewrite nodes_add_edge. apply NoDup_nodes_ensure, NoDup_nodes_ensure, Hok.
  - intros i nb. rewrite get_add_edge.
    destruct (keqb i u); [|destruct (keqb i v)].
    + intros [= <-]. now apply NoDup_keys_set, NoDup_nbrs_of.
    + intros [= <-]. now apply NoDup_keys_set, NoDup_nbrs_of.
    + apply Hok.
Qed.

Lemma symmetric_add_edge G u v w : symmetric G -> symmetric (add_edge G u v w).
Proof.
  intros Hs i j x. rewrite !weight_add_edge.
  rewrite (orb_comm (keqb j u && keqb i v)), (andb_comm (keqb j v)), (andb_comm (keqb j u)).
  destruct (keqb i u && keqb j v || keqb i v && keqb j u); [tauto | apply Hs].
Qed.

Lemma graph_ok_empty : graph_ok empty_graph.
Proof.
  repeat split; try constructor; intros; discriminate.
Qed.

Lemma graph_ok_add_trade_desire G a b : graph_ok G -> graph_ok (add_trade_desire G a b).
Proof.
  intros [Hd Hs]. split; [now apply dicts_ok_add_edge | now apply symmetric_add_edge].
Qed.

Lemma graph_ok_run_from calls : forall G, graph_ok G -> graph_ok (run_from G calls).
Proof.
  induction calls as [|[a b] calls IH]; simpl; intros G Hok; [assumption|].
  apply IH. now apply graph_ok_add_trade_desire.
Qed.

Lemma graph_ok_run calls : graph_ok (run calls).
Proof. apply graph_ok_run_from, graph_ok_empty. Qed.

Lemma graph_okb_sound G : graph_okb G = true -> graph_ok G.
Proof.
  unfold graph_okb. rewrite andb_true_iff, forallb_forall.
  intros [Hnd Hall]. apply distinctb_NoDup in Hnd. repeat split.
  - assumption.
  - intros i nb Hi. apply dict_get_Some_In in Hi. apply Hall in Hi.
    apply andb_true_iff in Hi. now apply distinctb_NoDup.
  - intros i j w Hw. unfold weight in Hw.
    destruct (dict_get i G) as [nb|] eqn:Hi; [|discriminate]. simpl in Hw.
    apply dict_get_Some_In in Hi. apply Hall in Hi.
    apply andb_true_iff in Hi. destruct Hi as [_ Hi].
    rewrite forallb_forall in Hi. apply dict_get_Some_In in Hw.
    specialize (Hi _ Hw). unfold weight_is in Hi. simpl in Hi.
    destruct (weight G j i) as [w'|]; [|discriminate].
    apply Z.eqb_eq in Hi. now subst.
Qed.

Lemma graph_okb_complete G : graph_ok G -> graph_okb G = true.
Proof.
  intros [[Hnd Hnb] Hs]. unfold graph_okb. apply andb_true_iff. split.
  - now apply distinctb_NoDup.
  - apply forallb_forall. intros [i nb] He. cbn [fst snd].
    assert (Hi : dict_get i G = Some nb) by now apply dict_get_In.
    apply andb_true_iff. split.
    + apply distinctb_NoDup. now apply (Hnb i).
    + apply forallb_forall. intros [j w] Hj. cbn [fst snd].
      assert (Hw : weight G i j = Some w).
      { rewrite (weight_get G i j nb Hi). apply dict_get_In; [|assumption].
        now apply (Hnb i). }
      unfold weight_is. rewrite (Hs i j w Hw). apply Z.eqb_refl.
Qed.

(** Every graph the solver can reach passes the check. *)
Lemma graph_okb_run calls : graph_okb (run calls) = true.
Proof. apply graph_okb_complete, graph_ok_run. Qed.

Lemma self_loop_freeb_sound G :
  NoDup (nodes G) -> self_loop_freeb G = true -> forall i, weight G i i = None.
Proof.
  intros Hnd Hf i. unfold self_loop_freeb in Hf. rewrite forallb_forall in Hf.
  unfold weight. destruct (dict_get i G) as [nb|] eqn:Hi; [|reflexivity]. simpl.
  apply dict_get_Some_In in Hi. apply Hf in Hi. simpl in Hi.
  unfold dict_mem in Hi. now destruct (dict_get i nb).
Qed.

(** ** The quadratic terms *)

Lemma symmetric_None G i j : symmetric G -> weight G i j = None -> weight G j i = None.
Proof.
  intros Hs Hn. destruct (weight G j i) as [w|] eqn:E; [|reflexivity].
  apply Hs in E. congruence.
Qed.

Lemma qubo_entry_edge G i j w :
  symmetric G -> i <> j -> weight G i j = Some w ->
  let k := ordered_pair i j in
  fst k <> snd k /\ qubo_entry G (fst k) (snd k) = Some (2 * w) /\
  qubo_entry G (snd k) (fst k) = None.
Proof.
  intros Hs Hne Hw. unfold ordered_pair, qubo_entry.
  destruct (i <? j)%string eqn:Hlt; simpl.
  - rewrite Hlt, (ltb_asym _ _ Hlt), Hw.
    apply keqb_neq in Hne. rewrite Hne, (keqb_sym j i), Hne. simpl.
    apply keqb_neq in Hne. auto.
  - destruct (ltb_total i j Hne) as [Hlt'|Hlt']; [congruence|].
    rewrite Hlt', Hlt, (Hs i j w Hw).
    apply keqb_neq in Hne. rewrite Hne, (keqb_sym j i), Hne. simpl.
    apply keqb_neq in Hne. auto.
Qed.

Lemma qubo_entry_no_edge G i j :
  i <> j -> weight G i j = None -> qubo_entry G i j = None.
Proof.
  intros Hne Hw. unfold qubo_entry. apply keqb_neq in Hne. rewrite Hne, Hw.
  now destruct (i <? j)%string.
Qed.

(** C2, as amended: for every well-formed graph and every edge between two
    distinct nodes i and j with weight w, the QUBO returned by [build_qubo]
    holds exactly one off-diagonal entry for the unordered pair, keyed with
    the smaller endpoint first, with coefficient 2*w; for two distinct nodes
    without an edge it holds no entry under either key. *)
Theorem build_qubo_offdiag (G : Graph) :
  graph_okb G = true ->
  exists Q, build_qubo G = Some Q /\
    NoDup (dict_keys Q) /\
    (forall i j w, i <> j -> weight G i j = Some w ->
       offdiag_entry_for Q i j (2 * w)) /\
    (forall i j, i <> j -> weight G i j = None ->
       dict_get (i, j) Q = None /\ dict_get (j, i) Q = None).
Proof.
  intros Hok. apply graph_okb_sound in Hok. destruct Hok as [Hd Hs].
  exists (qubo_closed G). split; [now apply build_qubo_closed|].
  split; [now apply NoDup_keys_qubo_closed|]. split.
  - intros i j w Hne Hw. unfold offdiag_entry_for.
    destruct (qubo_entry_edge G i j w Hs Hne Hw) as (Hk & Hget & Hrev).
    destruct (ordered_pair i j) as [lo hi]. simpl in *.
    rewrite !qubo_closed_lookup by apply Hd. auto.
  - intros i j Hne Hw. rewrite !qubo_closed_lookup by apply Hd. split.
    + now apply qubo_entry_no_edge.
    + apply qubo_entry_no_edge; [congruence | now apply symmetric_None].
Qed.

Lemma build_qubo_offdiag_witness :
  exists Q, build_qubo cycle4 = Some Q /\
    NoDup (dict_keys Q) /\
    (forall i j w, i <> j -> weight cycle4 i j = Some w ->
       offdiag_entry_for Q i j (2 * w)) /\
    (forall i j, i <> j -> weight cycle4 i j = None ->
       dict_get (i, j) Q = None /\ dict_get (j, i) Q = None).
Proof. apply (build_qubo_offdiag cycle4). vm_compute. reflexivity. Defined.

(** C2 as stated fails on a self-loop: after [add_trade_desire("A", "A")]
    the graph has the edge (A, A) of weight 1, and the QUBO is
    {(A, A): -1}, with no off-diagonal entry of coefficient 2 for it. *)
Lemma build_qubo_offdiag_self_loop_counterexample :
  let G := add_trade_desire empty_graph "A"%string "A"%string in
  weight G "A"%string "A"%string = Some 1 /\
  ~ (exists Q, build_qubo G = Some Q /\
       forall i j w, weight G i j = Some w -> offdiag_entry_for Q i j (2 * w)).
Proof.
  split; [reflexivity|].
  intros (Q & _ & Hall).
  destruct (Hall "A"%string "A"%string 1 eq_refl) as (Hk & _).
  apply Hk. reflexivity.
Qed.

(** ** The four-cycle *)

Open Scope string_scope.

(** C3: for the graph built from the insertions (A,B), (B,C), (C,D), (D,A),
    [build_qubo] returns a QUBO with diagonal entry -2 for each of the four
    nodes, off-diagonal entry 2 for each of the four edges, and no entry for
    the pairs (A,C) and (B,D). *)
Theorem build_qubo_cycle4 :
  exists Q, build_qubo cycle4 = Some Q /\
    (forall n, In n ["A"; "B"; "C"; "D"]%string -> dict_get (n, n) Q = Some (-2)) /\
    offdiag_entry_for Q "A" "B" 2 /\
    offdiag_entry_for Q "B" "C" 2 /\
    offdiag_entry_for Q "C" "D" 2 /\
    offdiag_entry_for Q "D" "A" 2 /\
    dict_get ("A", "C")%string Q = None /\ dict_get ("C", "A")%string Q = None /\
    dict_get ("B", "D")%string Q = None /\ dict_get ("D", "B")%string Q = None /\
    List.length Q = 8%nat.
Proof.
  eexists. split; [vm_compute; reflexivity|].
  split.
  - intros n [<-|[<-|[<-|[<-|[]]]]]; reflexivity.
  - unfold offdiag_entry_for.
    repeat split; try reflexivity; vm_compute; discriminate.
Qed.

Close Scope string_scope.

(** ** Purity *)

(** Each loop of the method hands the graph on as it received it, and
    computes what the function on graphs computes. *)

Lemma sum_weights_call_reads i js : forall acc G,
  sum_weights_call i js acc G = (sum_weights G i js acc, G).
Proof.
  induction js as [|j js IH]; intros acc G; cbn [sum_weights_call sum_weights].
  - reflexivity.
  - unfold meth_bind, G_weight. destruct (weight G i j) as [w|]; simpl.
    + apply IH.
    + reflexivity.
Qed.

Lemma emit_pairs_call_reads i js : forall Q G,
  emit_pairs_call i js Q G = (emit_pairs G i js Q, G).
Proof.
  induction js as [|j js IH]; intros Q G; cbn [emit_pairs_call emit_pairs].
  - reflexivity.
  - destruct (i <? j)%string; [|apply IH].
    unfold meth_bind, G_weight. destruct (weight G i j) as [w|]; simpl.
    + apply IH.
    + reflexivity.
Qed.

Lemma qubo_node_call_reads Q i G :
  qubo_node_call Q i G = (qubo_node G Q i, G).
Proof.
  unfold qubo_node_call, qubo_node, meth_bind, G_neighbors.
  destruct (neighbors G i) as [js|] eqn:Hjs; simpl; [|reflexivity].
  rewrite sum_weights_call_reads.
  destruct (sum_weights G i js 0) as [s|]; simpl; [|reflexivity].
  rewrite Hjs. simpl. apply emit_pairs_call_reads.
Qed.

Lemma qubo_nodes_call_reads ns : forall Q G,
  qubo_nodes_call ns Q G = (qubo_nodes G ns Q, G).
Proof.
  induction ns as [|i ns IH]; intros Q G; cbn [qubo_nodes_call qubo_nodes].
  - reflexivity.
  - unfold meth_bind. rewrite qubo_node_call_reads.
    destruct (qubo_node G Q i) as [Q'|]; simpl; [apply IH | reflexivity].
Qed.

Lemma build_qubo_call_reads G : build_qubo_call G = (build_qubo G, G).
Proof.
  unfold build_qubo_call, meth_bind, G_nodes. apply qubo_nodes_call_reads.
Qed.

(** A method can change the graph: [add_trade_desire] does, on every
    graph on which the edge is not already there. *)
Lemma add_trade_desire_call_writes (a b : Node) (G : Graph) :
  weight G a b = None ->
  snd (add_trade_desire_call a b G) = add_trade_desire G a b /\
  snd (add_trade_desire_call a b G) <> G.
Proof.
  intros Hw. split; [reflexivity|]. cbn [add_trade_desire_call G_add_edge snd].
  intros E. assert (Hw' : weight (add_edge G a b 1) a b = Some 1)
    by (rewrite weight_add_edge, !keqb_refl; reflexivity).
  rewrite E in Hw'. congruence.
Qed.

(** C4: [build_qubo] is a deterministic, pure function of the graph: run
    as a method on the solver's graph, two calls in a row return equal
    QUBO mappings, and a call leaves the nodes, the edges and the weights
    of the graph as they were; what it returns is a function of the graph
    alone. *)
Theorem build_qubo_pure (G : Graph) :
  let (Q1, G1) := build_qubo_call G in
  let (Q2, G2) := build_qubo_call G1 in
  Q1 = Q2 /\ G1 = G /\ G2 = G /\
  nodes G2 = nodes G /\ (forall i j, weight G2 i j = weight G i j) /\
  Q1 = build_qubo G.
Proof.
  rewrite (build_qubo_call_reads G), (build_qubo_call_reads G).
  repeat split; reflexivity.
Qed.

(** ** Self-loops *)

Lemma filter_keys_absent (nb : Nbrs) (a : Node) :
  ~ In a (dict_keys nb) -> filter (fun e => negb (keqb (fst e) a)) nb = nb.
Proof.
  induction nb as [|[k v] nb IH]; simpl; intros Hn; [reflexivity|].
  destruct (keqb_spec k a) as [->|Hne]; [tauto|]. simpl. f_equal. tauto.
Qed.

Lemma weighted_degree_set_self (nb : Nbrs) (a : Node) (w : Z) :
  NoDup (dict_keys nb) ->
  weighted_degree (dict_set a w nb) =
  w + weighted_degree (filter (fun e => negb (keqb (fst e) a)) nb).
Proof.
  unfold weighted_degree, sum_Z.
  induction nb as [|[k v] nb IH]; simpl; intros Hnd; [reflexivity|].
  inversion Hnd as [|? ? Hk Hnd']; subst.
  destruct (keqb_spec a k) as [->|Hne]; simpl.
  - rewrite keqb_refl. simpl. now rewrite filter_keys_absent.
  - rewrite (keqb_sym k a). apply keqb_neq in Hne. rewrite Hne. simpl.
    rewrite (IH Hnd'). lia.
Qed.

Lemma entries_at_unique {K V : Type} `{EqKeyLaws K} (d : dict K V) k v :
  NoDup (dict_keys d) -> dict_get k d = Some v ->
  filter (fun e => keqb (fst e) k) d = [(k, v)].
Proof.
  induction d as [|[k' v'] d IH]; simpl; [discriminate|].
  intros Hnd. inversion Hnd as [|? ? Hk Hnd']; subst.
  rewrite (keqb_sym k' k).
  destruct (keqb_spec k k') as [->|Hne].
  - intros [= ->]. f_equal.
    clear IH Hnd Hnd'. induction d as [|[k0 v0] d IH]; simpl; [reflexivity|].
    simpl in Hk. destruct (keqb_spec k0 k') as [->|Hne]; [tauto|]. tauto.
  - intros Hg. now apply IH.
Qed.

Lemma add_edge_empty_self (a : Node) (w : Z) :
  add_edge empty_graph a a w = [(a, [(a, w)])].
Proof.
  unfold add_edge, ensure_node, dict_mem, empty_graph. simpl.
  rewrite !keqb_refl. simpl. rewrite !keqb_refl. simpl. now rewrite !keqb_refl.
Qed.

(** C9: after [add_trade_desire(a, a)], the diagonal entry of [a] includes
    the weight 1 of the self-loop (it is minus 1 minus the weights of the
    other edges at [a]), and no quadratic entry is written for the pair
    (a, a): the only entry under that key is the diagonal one, the strict
    test [a < a] being false.  On a new graph the QUBO is {(a, a): -1}. *)
Theorem build_qubo_self_loop (G : Graph) (a : Node) :
  graph_okb G = true ->
  let others := weighted_degree (filter (fun e => negb (keqb (fst e) a)) (nbrs_of G a)) in
  weight (add_trade_desire G a a) a a = Some 1 /\
  (a <? a)%string = false /\
  build_qubo (add_trade_desire empty_graph a a) = Some [((a, a), -1)] /\
  exists Q, build_qubo (add_trade_desire G a a) = Some Q /\
    dict_get (a, a) Q = Some (- (1 + others)) /\
    entries_at (a, a) Q = [((a, a), - (1 + others))].
Proof.
  intros Hok others. apply graph_okb_sound in Hok. destruct Hok as [Hd Hs].
  assert (Hd' : dicts_ok (add_trade_desire G a a)) by now apply dicts_ok_add_edge.
  assert (Hget : dict_get (a, a) (qubo_closed (add_trade_desire G a a))
                 = Some (- (1 + others))).
  { rewrite qubo_closed_lookup by apply Hd'. unfold qubo_entry.
    rewrite keqb_refl. unfold add_trade_desire. rewrite get_add_edge, keqb_refl.
    simpl. rewrite weighted_degree_set_self by now apply NoDup_nbrs_of.
    reflexivity. }
  split; [|split; [|split]].
  - unfold add_trade_desire. rewrite weight_add_edge, !keqb_refl. reflexivity.
  - apply ltb_irrefl.
  - rewrite build_qubo_closed
      by (apply dicts_ok_add_edge, graph_ok_empty).
    unfold add_trade_desire. rewrite add_edge_empty_self.
    unfold qubo_closed, diag_entries, offdiag_entries, pair_entries.
    cbn [map flat_map filter fst snd app]. rewrite ltb_irrefl. reflexivity.
  - exists (qubo_closed (add_trade_desire G a a)).
    split; [now apply build_qubo_closed|]. split; [assumption|].
    apply entries_at_unique; [now apply NoDup_keys_qubo_closed | assumption].
Qed.

Lemma build_qubo_self_loop_witness :
  let G := run [("A", "B")]%string in
  let a := "A"%string in
  let others := weighted_degree (filter (fun e => negb (keqb (fst e) a)) (nbrs_of G a)) in
  weight (add_trade_desire G a a) a a = Some 1 /\
  (a <? a)%string = false /\
  build_qubo (add_trade_desire empty_graph a a) = Some [((a, a), -1)] /\
  exists Q, build_qubo (add_trade_desire G a a) = Some Q /\
    dict_get (a, a) Q = Some (- (1 + others)) /\
    entries_at (a, a) Q = [((a, a), - (1 + others))].
Proof.
  apply (build_qubo_self_loop (run [("A", "B")]%string) "A"%string).
  vm_compute. reflexivity.
Defined.

(** ** The top level *)

Open Scope string_scope.

Lemma example_qubo :
  build_qubo (run_from empty_graph example_trades) =
  Some [(("Alice_Bike", "Alice_Bike"), -2);
        (("Bob_Laptop", "Bob_Laptop"), -2);
        (("Charlie_Guitar", "Charlie_Guitar"), -2);
        (("David_Camera", "David_Camera"), -2);
        (("Alice_Bike", "Bob_Laptop"), 2);
        (("Alice_Bike", "David_Camera"), 2);
        (("Bob_Laptop", "Charlie_Guitar"), 2);
        (("Charlie_Guitar", "David_Camera"), 2)].
Proof. vm_compute. reflexivity. Qed.

(** C7: when the service's best sample is {A:1, B:0, C:1, D:0} with some
    energy, the program prints, after its two header lines, "A: Trade",
    "B: Keep", "C: Trade", "D: Keep" in that order and then the energy as
    the formatter renders it; the label is "Trade" for bit 1 and "Keep" for
    bit 0. *)
Theorem main_reports_sample {Energy : Type} (svc : Services Energy)
    (env : Env) (config : Config) (energy : Energy) :
  load_config env = inr config ->
  connect svc config = None ->
  (forall Q, first_sample svc config Q 1000 = inr (sampleABCD, energy)) ->
  (forall g, group_label g = "Trade" <-> g = 1%Z) /\
  (forall g, g = 0%Z \/ g = 1%Z -> (group_label g = "Keep" <-> g = 0%Z)) /\
  exists rest,
    printed (main svc env) =
    ([(newline ++ "Solution found:")%string; "--------------";
      "A: Trade"; "B: Keep"; "C: Trade"; "D: Keep";
      (newline ++ "Solution energy: " ++ str_energy svc energy)%string] ++ rest)%list.
Proof.
  intros Hcfg Hconn Hsample. split; [|split].
  { intros g. unfold group_label. destruct (Z.eqb_spec g 1) as [->|Hne].
    - tauto.
    - split; [discriminate | contradiction]. }
  { intros g [-> | ->]; unfold group_label; simpl; split;
      try reflexivity; try discriminate; try lia. }
  unfold main, main_body. rewrite Hcfg.
  cbn [lift mbind]. unfold init. rewrite Hconn.
  cbn [lift mbind check ret emit raise fst snd app].
  unfold solve. rewrite example_qubo.
  cbn [lift mbind check ret emit raise fst snd app].
  rewrite Hsample.
  cbn [lift mbind check ret emit raise fst snd app].
  unfold print_results, visualize_solution.
  destruct (savefig svc (run_from empty_graph example_trades) sampleABCD)
    as [[msg|msg]|]; eexists; cbn; reflexivity.
Qed.

Lemma main_reports_sample_witness :
  (forall g, group_label g = "Trade" <-> g = 1%Z) /\
  (forall g, g = 0%Z \/ g = 1%Z -> (group_label g = "Keep" <-> g = 0%Z)) /\
  exists rest,
    printed (main demo_services env_with_token) =
    ([(newline ++ "Solution found:")%string; "--------------";
      "A: Trade"; "B: Keep"; "C: Trade"; "D: Keep";
      (newline ++ "Solution energy: " ++ str_energy demo_services (-4)%Z)%string] ++ rest)%list.
Proof.
  apply (main_reports_sample demo_services env_with_token
           {| token := "secret";
              endpoint := "https://cloud.dwavesys.com/sapi";
              solver := "Advantage_system4.1" |} (-4)%Z).
  - reflexivity.
  - reflexivity.
  - intros Q. reflexivity.
Defined.



Close Scope string_scope.

(** ** Repeated and reversed insertions *)

Lemma weight_mem G u v w : weight G u v = Some w -> dict_mem u G = true.
Proof.
  unfold weight, dict_mem. now destruct (dict_get u G).
Qed.

(** Storing an edge that is already there, with the weight it has, changes
    nothing, not even the order of the keys. *)
Lemma add_edge_noop G u v w :
  weight G u v = Some w -> weight G v u = Some w -> add_edge G u v w = G.
Proof.
  intros Huv Hvu. unfold add_edge, ensure_node.
  rewrite (weight_mem G u v w Huv), (weight_mem G v u w Hvu).
  assert (Hu : dict_alter (dict_set v w) u G = G).
  { apply dict_alter_id. intros nb Hnb. apply dict_set_same.
    now rewrite <- (weight_get G u v nb Hnb). }
  rewrite Hu. apply dict_alter_id. intros nb Hnb. apply dict_set_same.
  now rewrite <- (weight_get G v u nb Hnb).
Qed.

Lemma add_edge_twice G u v w : add_edge (add_edge G u v w) u v w = add_edge G u v w.
Proof.
  apply add_edge_noop; rewrite weight_add_edge, !keqb_refl; simpl;
    [reflexivity | now rewrite orb_true_r].
Qed.

Lemma add_edge_reversed G u v w : add_edge (add_edge G u v w) v u w = add_edge G u v w.
Proof.
  apply add_edge_noop; rewrite weight_add_edge, !keqb_refl; simpl;
    [now rewrite orb_true_r | reflexivity].
Qed.

Lemma run_from_repeat G a b n :
  run_from G (repeat (a, b) (S n)) = add_trade_desire G a b.
Proof.
  revert G. induction n as [|n IH]; intros G; [reflexivity|].
  change (run_from G (repeat (a, b) (S (S n))))
    with (run_from (add_trade_desire G a b) (repeat (a, b) (S n))).
  rewrite IH. apply add_edge_twice.
Qed.

(** C6: [add_trade_desire] is idempotent and overwrites: after n >= 1 calls
    with the same pair the graph is the one a single call gives (a call
    with the pair reversed changes nothing either), the edge has weight 1
    from both ends, and each endpoint lists the other exactly once. *)
Theorem add_trade_desire_idempotent (G : Graph) (a b : Node) (n : nat) :
  graph_okb G = true -> (1 <= n)%nat ->
  let G1 := add_trade_desire G a b in
  run_from G (repeat (a, b) n) = G1 /\
  add_trade_desire G1 b a = G1 /\
  weight G1 a b = Some 1 /\ weight G1 b a = Some 1 /\
  filter (fun e => keqb (fst e) b) (nbrs_of G1 a) = [(b, 1)] /\
  filter (fun e => keqb (fst e) a) (nbrs_of G1 b) = [(a, 1)].
Proof.
  intros Hok Hn G1. apply graph_okb_sound in Hok. destruct Hok as [Hd Hs].
  assert (Hd1 : dicts_ok G1) by now apply dicts_ok_add_edge.
  assert (Hab : weight G1 a b = Some 1).
  { unfold G1, add_trade_desire. now rewrite weight_add_edge, !keqb_refl. }
  assert (Hba : weight G1 b a = Some 1).
  { unfold G1, add_trade_desire.
    now rewrite weight_add_edge, !keqb_refl, orb_true_r. }
  split; [|split; [|split; [|split; [|split]]]].
  - destruct n as [|n]; [lia|]. apply run_from_repeat.
  - apply add_edge_reversed.
  - assumption.
  - assumption.
  - apply entries_at_unique; [now apply NoDup_nbrs_of | now rewrite get_nbrs_of].
  - apply entries_at_unique; [now apply NoDup_nbrs_of | now rewrite get_nbrs_of].
Qed.

Lemma add_trade_desire_idempotent_witness :
  let G := run [("A", "B"); ("B", "C")]%string in
  let G1 := add_trade_desire G "A"%string "B"%string in
  run_from G (repeat ("A", "B")%string 3) = G1 /\
  add_trade_desire G1 "B"%string "A"%string = G1 /\
  weight G1 "A"%string "B"%string = Some 1 /\
  weight G1 "B"%string "A"%string = Some 1 /\
  filter (fun e => keqb (fst e) "B"%string) (nbrs_of G1 "A"%string) = [("B"%string, 1)] /\
  filter (fun e => keqb (fst e) "A"%string) (nbrs_of G1 "B"%string) = [("A"%string, 1)].
Proof.
  apply (add_trade_desire_idempotent
           (run [("A", "B"); ("B", "C")]%string) "A"%string "B"%string 3).
  - vm_compute. reflexivity.
  - lia.
Defined.

(** ** Undirected edges *)

Lemma nbrs_of_equiv (G1 G2 : Graph) i : dict_equiv G1 G2 -> nbrs_of G1 i = nbrs_of G2 i.
Proof. intros He. unfold nbrs_of. now rewrite (He i). Qed.

Lemma dict_equiv_add_edge (G1 G2 : Graph) u v w :
  dict_equiv G1 G2 -> dict_equiv (add_edge G1 u v w) (add_edge G2 u v w).
Proof.
  intros He i. rewrite !get_add_edge.
  now rewrite (nbrs_of_equiv G1 G2 u He), (nbrs_of_equiv G1 G2 v He), (He i).
Qed.

Lemma add_edge_swap G u v w : dict_equiv (add_edge G u v w) (add_edge G v u w).
Proof.
  intros i. rewrite !get_add_edge.
  destruct (keqb_spec i u) as [Hu|Hu], (keqb_spec i v) as [Hv|Hv];
    try reflexivity.
  now subst u v.
Qed.

Lemma dict_equiv_run_from calls :
  forall G1 G2 : Graph, dict_equiv G1 G2 ->
  dict_equiv (run_from G1 calls) (run_from G2 calls).
Proof.
  induction calls as [|[a b] calls IH]; simpl; intros G1 G2 He; [assumption|].
  apply IH. now apply dict_equiv_add_edge.
Qed.

Lemma qubo_entry_equiv (G1 G2 : Graph) a b :
  dict_equiv G1 G2 -> qubo_entry G1 a b = qubo_entry G2 a b.
Proof.
  intros He. unfold qubo_entry, weight. now rewrite !(He a).
Qed.

(** Graphs that are equal as dictionaries have QUBOs that are equal as
    dictionaries, whatever the order of their nodes. *)
Lemma build_qubo_equiv (G1 G2 : Graph) :
  dicts_ok G1 -> dicts_ok G2 -> dict_equiv G1 G2 ->
  exists Q1 Q2, build_qubo G1 = Some Q1 /\ build_qubo G2 = Some Q2 /\ dict_equiv Q1 Q2.
Proof.
  intros H1 H2 He. exists (qubo_closed G1), (qubo_closed G2).
  split; [now apply build_qubo_closed|]. split; [now apply build_qubo_closed|].
  intros [a b]. rewrite !qubo_closed_lookup by (apply H1 || apply H2).
  now apply qubo_entry_equiv.
Qed.

(** C5: edges are undirected.  [add_trade_desire(a, b)] and
    [add_trade_desire(b, a)] give the same graph (the same nodes, each with
    the same neighbours and weights; as dictionaries the two adjacencies are
    equal), they still do after any further calls, and the QUBOs built from
    the two are the same mapping. *)
Theorem add_trade_desire_undirected (G : Graph) (a b : Node) (more : list (Node * Node)) :
  graph_okb G = true ->
  let G1 := run_from (add_trade_desire G a b) more in
  let G2 := run_from (add_trade_desire G b a) more in
  dict_equiv G1 G2 /\
  (forall i j, weight G1 i j = weight G2 i j) /\
  (forall i, In i (nodes G1) <-> In i (nodes G2)) /\
  exists Q1 Q2, build_qubo G1 = Some Q1 /\ build_qubo G2 = Some Q2 /\ dict_equiv Q1 Q2.
Proof.
  intros Hok G1 G2. apply graph_okb_sound in Hok.
  assert (He : dict_equiv G1 G2).
  { apply dict_equiv_run_from, add_edge_swap. }
  assert (Hok1 : graph_ok G1).
  { apply graph_ok_run_from. now apply graph_ok_add_trade_desire. }
  assert (Hok2 : graph_ok G2).
  { apply graph_ok_run_from. now apply graph_ok_add_trade_desire. }
  split; [assumption|]. split; [|split].
  - intros i j. unfold weight. now rewrite (He i).
  - intros i. unfold nodes. rewrite <- !dict_mem_In. unfold dict_mem.
    now rewrite (He i).
  - apply build_qubo_equiv; [apply Hok1 | apply Hok2 | assumption].
Qed.

Lemma add_trade_desire_undirected_witness :
  let G := run [("A", "B")]%string in
  let more := [("B", "C")]%string in
  let G1 := run_from (add_trade_desire G "D"%string "C"%string) more in
  let G2 := run_from (add_trade_desire G "C"%string "D"%string) more in
  dict_equiv G1 G2 /\
  (forall i j, weight G1 i j = weight G2 i j) /\
  (forall i, In i (nodes G1) <-> In i (nodes G2)) /\
  exists Q1 Q2, build_qubo G1 = Some Q1 /\ build_qubo G2 = Some Q2 /\ dict_equiv Q1 Q2.
Proof.
  apply (add_trade_desire_undirected
           (run [("A", "B")]%string) "D"%string "C"%string [("B", "C")]%string).
  vm_compute. reflexivity.
Defined.

(** ** The graph against the edge set the calls describe *)

Lemma same_pair_swap (a b : Node) (e : Node * Node) :
  same_pair (b, a) e = same_pair (a, b) e.
Proof.
  destruct e as [x y]. unfold same_pair. simpl. rewrite !keqb_pair.
  rewrite orb_comm. f_equal; apply andb_comm.
Qed.

Lemma existsb_same_pair_swap (a b : Node) (E : list (Node * Node)) :
  existsb (same_pair (b, a)) E = existsb (same_pair (a, b)) E.
Proof.
  induction E as [|e E IH]; simpl; [reflexivity|].
  now rewrite same_pair_swap, IH.
Qed.

Lemma nbrs_of_add_edge G u v w i :
  nbrs_of (add_edge G u v w) i =
  if keqb i u then dict_set v w (nbrs_of G u)
  else if keqb i v then dict_set u w (nbrs_of G v)
  else nbrs_of G i.
Proof.
  unfold nbrs_of at 1. rewrite get_add_edge.
  destruct (keqb i u); [reflexivity|]. now destruct (keqb i v).
Qed.

Lemma nodes_add_edge_In G u v w i :
  In i (nodes (add_edge G u v w)) <-> In i (nodes G) \/ i = u \/ i = v.
Proof.
  unfold nodes. rewrite <- !dict_mem_In. unfold dict_mem.
  rewrite get_add_edge.
  destruct (keqb_spec i u) as [Hu|Hu]; [tauto|].
  destruct (keqb_spec i v) as [Hv|Hv]; [tauto|].
  destruct (dict_get i G); split; try tauto; intros [H|[H|H]]; congruence.
Qed.

Lemma weighted_degree_set_new (nb : Nbrs) (j : Node) (w : Z) :
  dict_get j nb = None -> weighted_degree (dict_set j w nb) = weighted_degree nb + w.
Proof.
  intros Hj. apply dict_get_None in Hj. rewrite dict_set_absent by assumption.
  unfold weighted_degree, dict_values. rewrite map_app, sum_Z_app.
  unfold sum_Z. simpl. lia.
Qed.

Lemma agrees_empty : agrees empty_graph [].
Proof.
  repeat split; simpl; try tauto; discriminate.
Qed.

Lemma agrees_add_trade_desire G E a b :
  agrees G E -> agrees (add_trade_desire G a b) (spec_add_edge E (a, b)).
Proof.
  intros (Hn & Hw & Hdeg). unfold spec_add_edge, add_trade_desire.
  destruct (existsb (same_pair (a, b)) E) eqn:Hab.
  - assert (Huv : weight G a b = Some 1) by now rewrite Hw, Hab.
    assert (Hvu : weight G b a = Some 1)
      by now rewrite Hw, existsb_same_pair_swap, Hab.
    rewrite (add_edge_noop G a b 1 Huv Hvu). split; [|split]; assumption.
  - assert (Huv : weight G a b = None) by now rewrite Hw, Hab.
    assert (Hvu : weight G b a = None)
      by now rewrite Hw, existsb_same_pair_swap, Hab.
    split; [|split].
    + intros i. rewrite nodes_add_edge_In, existsb_app, orb_true_iff, Hn.
      simpl. unfold incident. simpl. rewrite orb_false_r, orb_true_iff.
      now rewrite !keqb_eq.
    + intros i j. rewrite weight_add_edge, existsb_app, Hw.
      cbn [existsb]. rewrite orb_false_r.
      change (same_pair (i, j) (a, b))
        with (keqb i a && keqb j b || keqb i b && keqb j a).
      destruct (keqb i a && keqb j b || keqb i b && keqb j a);
        [now rewrite orb_true_r | now rewrite orb_false_r].
    + intros i. rewrite nbrs_of_add_edge, filter_app, length_app, Nat2Z.inj_add.
      rewrite <- Hdeg. cbn [filter]. unfold incident. cbn [fst snd].
      destruct (keqb_spec i a) as [->|Hia]; cbn [orb List.length].
      * rewrite weighted_degree_set_new by now rewrite get_nbrs_of.
        reflexivity.
      * destruct (keqb_spec i b) as [->|Hib]; cbn [orb List.length].
        -- rewrite weighted_degree_set_new by now rewrite get_nbrs_of.
           reflexivity.
        -- simpl. lia.
Qed.

Lemma agrees_run_from calls :
  forall G E, agrees G E -> agrees (run_from G calls) (fold_left spec_add_edge calls E).
Proof.
  induction calls as [|[a b] calls IH]; simpl; intros G E Ha; [assumption|].
  apply IH. now apply agrees_add_trade_desire.
Qed.

Lemma agrees_run calls : agrees (run calls) (spec_edges calls).
Proof. apply agrees_run_from, agrees_empty. Qed.

(** C1: for the graph reached by any sequence of [add_trade_desire] calls
    and every node i of it, the QUBO returned by [build_qubo] has a
    diagonal entry (i, i) whose coefficient is minus the sum of the weights
    of the edges at i; that sum is the number of edges (one per unordered
    pair of identifiers in the calls, each of weight 1) that have i as an
    endpoint. *)
Theorem build_qubo_diagonal (calls : list (Node * Node)) (i : Node) :
  In i (nodes (run calls)) ->
  exists Q, build_qubo (run calls) = Some Q /\
    dict_get (i, i) Q = Some (- weighted_degree (nbrs_of (run calls) i)) /\
    weighted_degree (nbrs_of (run calls) i) = incident_weight calls i.
Proof.
  intros Hi. destruct (graph_ok_run calls) as [Hd Hs].
  exists (qubo_closed (run calls)). split; [now apply build_qubo_closed|].
  split.
  - rewrite qubo_closed_lookup by apply Hd. unfold qubo_entry, nbrs_of.
    rewrite keqb_refl. unfold nodes in Hi. apply dict_mem_In in Hi.
    unfold dict_mem in Hi. now destruct (dict_get i (run calls)).
  - apply (agrees_run calls).
Qed.

Lemma build_qubo_diagonal_witness :
  let calls := [("A", "B"); ("B", "C"); ("B", "A"); ("C", "C")]%string in
  exists Q, build_qubo (run calls) = Some Q /\
    dict_get ("C", "C")%string Q
      = Some (- weighted_degree (nbrs_of (run calls) "C"%string)) /\
    weighted_degree (nbrs_of (run calls) "C"%string) = incident_weight calls "C"%string.
Proof.
  apply (build_qubo_diagonal
           [("A", "B"); ("B", "C"); ("B", "A"); ("C", "C")]%string "C"%string).
  simpl. tauto.
Defined.

(** ** Sums over lists *)

Lemma sum_map_ext {A : Type} (f g : A -> Z) (l : list A) :
  (forall x, In x l -> f x = g x) -> sum_Z (map f l) = sum_Z (map g l).
Proof.
  unfold sum_Z. induction l as [|x l IH]; simpl; intros Hfg; [reflexivity|].
  rewrite (Hfg x) by now left. rewrite IH; [reflexivity|].
  intros y Hy. apply Hfg. now right.
Qed.

Lemma sum_map_add {A : Type} (f g : A -> Z) (l : list A) :
  sum_Z (map (fun x => f x + g x) l) = sum_Z (map f l) + sum_Z (map g l).
Proof. unfold sum_Z. induction l as [|x l IH]; simpl; lia. Qed.

Lemma sum_map_mul {A : Type} (c : Z) (f : A -> Z) (l : list A) :
  sum_Z (map (fun x => c * f x) l) = c * sum_Z (map f l).
Proof. unfold sum_Z. induction l as [|x l IH]; simpl; lia. Qed.

Lemma sum_map_opp {A : Type} (f : A -> Z) (l : list A) :
  sum_Z (map (fun x => - f x) l) = - sum_Z (map f l).
Proof. unfold sum_Z. induction l as [|x l IH]; simpl; lia. Qed.

Lemma sum_map_zero {A : Type} (l : list A) : sum_Z (map (fun _ => 0) l) = 0.
Proof. unfold sum_Z. induction l as [|x l IH]; simpl; lia. Qed.

Lemma sum_Z_cons (x : Z) (l : list Z) : sum_Z (x :: l) = x + sum_Z l.
Proof. reflexivity. Qed.

Lemma sum_exchange {A B : Type} (h : A -> B -> Z) (l1 : list A) (l2 : list B) :
  sum_Z (map (fun x => sum_Z (map (fun y => h x y) l2)) l1) =
  sum_Z (map (fun y => sum_Z (map (fun x => h x y) l1)) l2).
Proof.
  induction l1 as [|x l1 IH]; cbn [map].
  - now rewrite sum_map_zero.
  - rewrite sum_Z_cons, IH, <- sum_map_add. apply sum_map_ext.
    intros y _. now rewrite sum_Z_cons.
Qed.

Lemma sum_indicator (N : list Node) (k : Node) (c : Z) :
  NoDup N -> In k N -> sum_Z (map (fun j => if keqb j k then c else 0) N) = c.
Proof.
  induction N as [|n N IH]; cbn [map]; intros Hnd Hin; [contradiction|].
  inversion Hnd as [|? ? Hn Hnd']; subst. rewrite sum_Z_cons.
  destruct (keqb_spec n k) as [->|Hne].
  - rewrite (sum_map_ext (fun j => if keqb j k then c else 0) (fun _ => 0)).
    + rewrite sum_map_zero. lia.
    + intros x Hx. destruct (keqb_spec x k) as [->|]; [contradiction | reflexivity].
  - destruct Hin as [->|Hin]; [contradiction|]. rewrite (IH Hnd' Hin). lia.
Qed.

(** A sum over the entries of a dictionary, taken over a list of candidate
    keys that covers them. *)
Lemma sum_over_keys (g : Node -> Z -> Z) (nb : Nbrs) (N : list Node) :
  NoDup (dict_keys nb) -> NoDup N -> incl (dict_keys nb) N ->
  sum_Z (map (fun e => g (fst e) (snd e)) nb) =
  sum_Z (map (fun j => match dict_get j nb with Some w => g j w | None => 0 end) N).
Proof.
  intros Hnb HN. induction nb as [|[k v] nb IH]; cbn [map]; intros Hincl.
  - cbn [dict_get]. now rewrite sum_map_zero.
  - inversion Hnb as [|? ? Hk Hnb']; subst. cbn [fst snd dict_get].
    rewrite (sum_map_ext _
      (fun j => (if keqb j k then g k v else 0) +
                match dict_get j nb with Some w => g j w | None => 0 end)).
    + rewrite sum_map_add, sum_indicator; [|assumption|apply Hincl; now left].
      rewrite sum_Z_cons. f_equal. apply (IH Hnb').
      intros x Hx. apply Hincl. now right.
    + intros j _. destruct (keqb_spec j k) as [->|Hne]; [|lia].
      apply dict_get_None in Hk. rewrite Hk. lia.
Qed.

(** ** The coefficients add up to zero *)

Lemma nbr_is_node G i j w : symmetric G -> weight G i j = Some w -> In j (nodes G).
Proof.
  intros Hs Hw. apply Hs in Hw. apply weight_mem in Hw. now apply dict_mem_In.
Qed.

Lemma nbr_keys_incl G i nb :
  symmetric G -> dict_get i G = Some nb -> incl (dict_keys nb) (nodes G).
Proof.
  intros Hs Hi j Hj. apply dict_mem_In in Hj. unfold dict_mem in Hj.
  destruct (dict_get j nb) as [w|] eqn:Hw; [|discriminate].
  apply (nbr_is_node G i j w Hs). now rewrite (weight_get G i j nb Hi).
Qed.

Lemma weight0_sym G i j : symmetric G -> weight0 G i j = weight0 G j i.
Proof.
  intros Hs. unfold weight0. destruct (weight G i j) as [w|] eqn:E.
  - now rewrite (Hs i j w E).
  - now rewrite (symmetric_None G i j Hs E).
Qed.

Lemma degree_as_sum G i nb :
  graph_ok G -> dict_get i G = Some nb ->
  weighted_degree nb = sum_Z (map (fun j => weight0 G i j) (nodes G)).
Proof.
  intros [[Hnd Hnb] Hs] Hi. unfold weighted_degree, dict_values.
  transitivity (sum_Z (map (fun j => match dict_get j nb with
                                     | Some w => w | None => 0 end) (nodes G))).
  - apply (sum_over_keys (fun _ w => w) nb (nodes G));
      [now apply (Hnb i) | assumption | now apply (nbr_keys_incl G i)].
  - apply sum_map_ext. intros j _. unfold weight0.
    now rewrite (weight_get G i j nb Hi).
Qed.

Lemma sum_values_pair_entries i nb :
  sum_values (pair_entries i nb) =
  sum_Z (map (fun e => if (i <? fst e)%string then 2 * snd e else 0) nb).
Proof.
  unfold sum_values, dict_values, pair_entries.
  induction nb as [|[j w] nb IH]; cbn [map filter fst snd]; [reflexivity|].
  rewrite sum_Z_cons. destruct (i <? j)%string; cbn [map snd].
  - now rewrite sum_Z_cons, IH.
  - rewrite IH. lia.
Qed.

Lemma pairs_as_sum G i nb :
  graph_ok G -> dict_get i G = Some nb ->
  sum_values (pair_entries i nb) =
  2 * sum_Z (map (fun j => if (i <? j)%string then weight0 G i j else 0) (nodes G)).
Proof.
  intros [[Hnd Hnb] Hs] Hi. rewrite sum_values_pair_entries.
  transitivity (sum_Z (map (fun j => match dict_get j nb with
                                     | Some w => if (i <? j)%string then 2 * w else 0
                                     | None => 0 end) (nodes G))).
  - apply (sum_over_keys (fun j w => if (i <? j)%string then 2 * w else 0) nb (nodes G));
      [now apply (Hnb i) | assumption | now apply (nbr_keys_incl G i)].
  - rewrite <- sum_map_mul. apply sum_map_ext. intros j _. unfold weight0.
    rewrite (weight_get G i j nb Hi).
    destruct (dict_get j nb), (i <? j)%string; lia.
Qed.

Lemma sum_values_app (Q1 Q2 : Qubo) : sum_values (Q1 ++ Q2) = sum_values Q1 + sum_values Q2.
Proof. unfold sum_values, dict_values. now rewrite map_app, sum_Z_app. Qed.

Lemma sum_values_flat_map {A : Type} (f : A -> Qubo) (l : list A) :
  sum_values (flat_map f l) = sum_Z (map (fun e => sum_values (f e)) l).
Proof.
  induction l as [|x l IH]; cbn [flat_map map]; [reflexivity|].
  now rewrite sum_values_app, sum_Z_cons, IH.
Qed.

Lemma entry_lookup G e : NoDup (nodes G) -> In e G -> dict_get (fst e) G = Some (snd e).
Proof. intros Hnd He. destruct e as [i nb]. now apply dict_get_In. Qed.

Lemma sum_offdiag_entries G :
  graph_ok G -> sum_values (offdiag_entries G) = 2 * total_weight G.
Proof.
  intros Hok. unfold offdiag_entries, total_weight.
  rewrite sum_values_flat_map.
  rewrite (sum_map_ext _
    (fun e => 2 * sum_Z (map (fun j => if (fst e <? j)%string
                                       then weight0 G (fst e) j else 0) (nodes G)))).
  - rewrite sum_map_mul. f_equal. unfold nodes at 3, dict_keys.
    now rewrite map_map.
  - intros e He. apply pairs_as_sum; [assumption|].
    apply entry_lookup; [apply Hok | assumption].
Qed.

Lemma sum_diag_entries G :
  graph_ok G ->
  sum_values (diag_entries G) =
  - sum_Z (map (fun i => sum_Z (map (fun j => weight0 G i j) (nodes G))) (nodes G)).
Proof.
  intros Hok. unfold sum_values, dict_values, diag_entries.
  rewrite map_map. cbn [snd].
  rewrite (sum_map_ext _
    (fun e => - sum_Z (map (fun j => weight0 G (fst e) j) (nodes G)))).
  - rewrite sum_map_opp. f_equal. unfold nodes at 3, dict_keys.
    now rewrite map_map.
  - intros e He. f_equal. apply degree_as_sum; [assumption|].
    apply entry_lookup; [apply Hok | assumption].
Qed.

(** Every edge is seen from both of its ends. *)
Lemma double_count G :
  symmetric G -> (forall i, weight G i i = None) ->
  sum_Z (map (fun i => sum_Z (map (fun j => weight0 G i j) (nodes G))) (nodes G))
  = 2 * total_weight G.
Proof.
  intros Hs Hloop. unfold total_weight.
  set (up := fun i j : Node => if (i <? j)%string then weight0 G i j else 0).
  rewrite (sum_map_ext _
    (fun i => sum_Z (map (fun j => up i j) (nodes G)) +
              sum_Z (map (fun j => up j i) (nodes G)))).
  - rewrite sum_map_add.
    rewrite (sum_exchange (fun i j => up j i) (nodes G) (nodes G)).
    unfold up. cbv beta.
    match goal with |- ?x + ?y = 2 * ?z => change y with x; change z with x end.
    lia.
  - intros i _. rewrite <- sum_map_add. apply sum_map_ext. intros j _.
    unfold up. destruct (keqb_spec i j) as [->|Hne].
    + rewrite ltb_irrefl. unfold weight0. rewrite Hloop. reflexivity.
    + destruct (ltb_total i j Hne) as [Hlt|Hlt]; rewrite Hlt, (ltb_asym _ _ Hlt).
      * lia.
      * rewrite (weight0_sym G i j Hs). lia.
Qed.

Lemma filter_all {A : Type} (f : A -> bool) (l : list A) :
  (forall x, In x l -> f x = true) -> filter f l = l.
Proof.
  induction l as [|x l IH]; simpl; intros Hf; [reflexivity|].
  rewrite (Hf x) by now left. f_equal. apply IH. intros y Hy. apply Hf. now right.
Qed.

Lemma filter_none {A : Type} (f : A -> bool) (l : list A) :
  (forall x, In x l -> f x = false) -> filter f l = [].
Proof.
  induction l as [|x l IH]; simpl; intros Hf; [reflexivity|].
  rewrite (Hf x) by now left. apply IH. intros y Hy. apply Hf. now right.
Qed.

Lemma is_diag_diag_entries G e : In e (diag_entries G) -> is_diag e = true.
Proof.
  unfold diag_entries. rewrite in_map_iff. intros (x & <- & _).
  unfold is_diag. simpl. apply keqb_refl.
Qed.

Lemma is_diag_offdiag_entries G e : In e (offdiag_entries G) -> is_diag e = false.
Proof.
  intros He. destruct e as [[a b] c].
  assert (Hk : In (a, b) (dict_keys (offdiag_entries G))).
  { change (a, b) with (fst ((a, b), c)). now apply in_map. }
  apply keys_offdiag_entries in Hk. destruct Hk as [_ Hlt].
  unfold is_diag. simpl. apply keqb_neq. now apply ltb_neq.
Qed.

(** C10: for every well-formed graph without self-loops, the coefficients
    of the QUBO returned by [build_qubo] add up to zero: the diagonal
    entries add up to -2 times the total edge weight and the off-diagonal
    entries to +2 times the total edge weight. *)
Theorem build_qubo_zero_sum (G : Graph) :
  graph_okb G = true -> self_loop_freeb G = true ->
  exists Q, build_qubo G = Some Q /\
    sum_diag Q = - (2 * total_weight G) /\
    sum_offdiag Q = 2 * total_weight G /\
    sum_values Q = 0.
Proof.
  intros Hok Hfree. apply graph_okb_sound in Hok.
  assert (Hloop : forall i, weight G i i = None).
  { apply self_loop_freeb_sound; [apply Hok | assumption]. }
  assert (Hdiag : sum_values (diag_entries G) = - (2 * total_weight G)).
  { rewrite sum_diag_entries by assumption. f_equal.
    apply double_count; [apply Hok | assumption]. }
  assert (Hoff : sum_values (offdiag_entries G) = 2 * total_weight G)
    by now apply sum_offdiag_entries.
  exists (qubo_closed G). split; [apply build_qubo_closed, Hok|].
  unfold sum_diag, sum_offdiag, qubo_closed. rewrite !filter_app.
  rewrite (filter_all is_diag (diag_entries G)) by apply is_diag_diag_entries.
  rewrite (filter_none is_diag (offdiag_entries G)) by apply is_diag_offdiag_entries.
  rewrite (filter_none _ (diag_entries G))
    by (intros e He; now rewrite (is_diag_diag_entries G e He)).
  rewrite (filter_all _ (offdiag_entries G))
    by (intros e He; now rewrite (is_diag_offdiag_entries G e He)).
  rewrite app_nil_r. simpl. rewrite sum_values_app, Hdiag, Hoff.
  repeat split; lia.
Qed.

Lemma build_qubo_zero_sum_witness :
  exists Q, build_qubo cycle4 = Some Q /\
    sum_diag Q = - (2 * total_weight cycle4) /\
    sum_offdiag Q = 2 * total_weight cycle4 /\
    sum_values Q = 0.
Proof.
  apply (build_qubo_zero_sum cycle4); vm_compute; reflexivity.
Defined.

(** * Further properties of the code *)

(** ** [add_trade_desire] on any graph *)

(** X1: on any graph, [add_trade_desire(a, b)] stores the edge with weight
    1 in both directions and leaves the weight of every other pair as it
    was: nothing else is added, removed or changed. *)
Theorem add_trade_desire_frame (G : Graph) (a b i j : Node) :
  weight (add_trade_desire G a b) a b = Some 1 /\
  weight (add_trade_desire G a b) b a = Some 1 /\
  ((i, j) <> (a, b) -> (i, j) <> (b, a) ->
   weight (add_trade_desire G a b) i j = weight G i j).
Proof.
  unfold add_trade_desire. rewrite !weight_add_edge, !keqb_refl. simpl.
  split; [reflexivity|]. split; [now rewrite orb_true_r|].
  intros Hab Hba.
  destruct (keqb_spec i a) as [Hia|Hia], (keqb_spec j b) as [Hjb|Hjb],
           (keqb_spec i b) as [Hib|Hib], (keqb_spec j a) as [Hja|Hja];
    simpl; try reflexivity; subst; congruence.
Qed.

(** X2: [add_trade_desire] keeps the graph well formed: if the keys of the
    adjacency are distinct and the adjacency is symmetric before the call,
    they are after it; so every graph reached from a new solver is well
    formed. *)
Theorem add_trade_desire_keeps_invariant (G : Graph) (a b : Node) :
  graph_okb G = true ->
  graph_okb (add_trade_desire G a b) = true /\
  forall calls, graph_okb (run_from G calls) = true.
Proof.
  intros Hok. apply graph_okb_sound in Hok. split.
  - now apply graph_okb_complete, graph_ok_add_trade_desire.
  - intros calls. now apply graph_okb_complete, graph_ok_run_from.
Qed.

Lemma add_trade_desire_keeps_invariant_witness :
  graph_okb (add_trade_desire cycle4 "A"%string "C"%string) = true /\
  forall calls, graph_okb (run_from cycle4 calls) = true.
Proof.
  apply (add_trade_desire_keeps_invariant cycle4 "A"%string "C"%string).
  vm_compute. reflexivity.
Defined.

(** ** The graph in terms of the calls *)

Lemma nodes_run_from calls : forall G i,
  In i (nodes (run_from G calls)) <-> In i (nodes G) \/ mentions calls i = true.
Proof.
  unfold mentions.
  induction calls as [|[a b] calls IH]; simpl; intros G i.
  - split; [tauto | intros [H|H]; [assumption | discriminate]].
  - rewrite IH. unfold add_trade_desire. rewrite nodes_add_edge_In.
    change (incident i (a, b)) with (keqb i a || keqb i b).
    destruct (keqb_spec i a) as [Hia|Hia], (keqb_spec i b) as [Hib|Hib];
      cbn [orb]; intuition congruence.
Qed.

Lemma weight_run_from calls : forall G i j,
  weight (run_from G calls) i j =
  if existsb (same_pair (i, j)) calls then Some 1 else weight G i j.
Proof.
  induction calls as [|[a b] calls IH]; simpl; intros G i j; [reflexivity|].
  rewrite IH. unfold add_trade_desire. rewrite weight_add_edge.
  change (same_pair (i, j) (a, b))
    with (keqb i a && keqb j b || keqb i b && keqb j a).
  destruct (existsb (same_pair (i, j)) calls); [now rewrite orb_true_r|].
  now rewrite orb_false_r.
Qed.

(** X3: after any sequence of calls on a new solver, the nodes are exactly
    the identifiers that occur in a call; no node appears twice. *)
Theorem nodes_are_endpoints (calls : list (Node * Node)) (i : Node) :
  (In i (nodes (run calls)) <->
   exists c, In c calls /\ (i = fst c \/ i = snd c)) /\
  NoDup (nodes (run calls)).
Proof.
  split; [|apply (graph_ok_run calls)].
  unfold run. rewrite nodes_run_from. unfold mentions.
  rewrite existsb_exists. split.
  - intros [[]|(c & Hc & Hi)]. exists c. split; [assumption|].
    unfold incident in Hi. apply orb_true_iff in Hi.
    now rewrite !keqb_eq in Hi.
  - intros (c & Hc & Hi). right. exists c. split; [assumption|].
    unfold incident. apply orb_true_iff. now rewrite !keqb_eq.
Qed.

(** X4: after any sequence of calls on a new solver, two identifiers are
    adjacent exactly when some call named them, in either order, and the
    weight of every edge is 1. *)
Theorem adjacency_by_calls (calls : list (Node * Node)) (i j : Node) :
  (weight (run calls) i j = Some 1 <->
   In (i, j) calls \/ In (j, i) calls) /\
  (weight (run calls) i j = None <->
   ~ In (i, j) calls /\ ~ In (j, i) calls).
Proof.
  unfold run. rewrite weight_run_from.
  assert (Hex : existsb (same_pair (i, j)) calls = true <->
                In (i, j) calls \/ In (j, i) calls).
  { rewrite existsb_exists. split.
    - intros ([x y] & Hc & Hs). unfold same_pair in Hs. simpl in Hs.
      apply orb_true_iff in Hs. rewrite !keqb_eq in Hs.
      destruct Hs as [[= -> ->]|[= -> ->]]; auto.
    - intros [H|H].
      + exists (i, j). split; [assumption|]. unfold same_pair.
        now rewrite keqb_refl.
      + exists (j, i). split; [assumption|]. unfold same_pair. simpl.
        now rewrite (keqb_refl (i, j)), orb_true_r. }
  destruct (existsb (same_pair (i, j)) calls) eqn:E.
  - split; [tauto|]. split; [discriminate|].
    intros [H1 H2]. destruct (proj1 Hex eq_refl); contradiction.
  - split.
    + split; [discriminate|]. intros H. apply Hex in H. discriminate.
    + split; [|reflexivity]. intros _.
      split; intros H; [assert (Hx := proj2 Hex (or_introl H))
                       | assert (Hx := proj2 Hex (or_intror H))]; discriminate.
Qed.

(** ** The shape of the QUBO *)

Lemma keys_offdiag_entries_nbr (l : Graph) a b :
  In (a, b) (dict_keys (offdiag_entries l)) ->
  exists nb, In (a, nb) l /\ In b (dict_keys nb) /\ (a <? b)%string = true.
Proof.
  unfold offdiag_entries, dict_keys. rewrite in_map_iff.
  intros ([[x y] v] & [= -> ->] & Hin).
  apply in_flat_map in Hin. destruct Hin as ([k nb] & Hk & Hin). simpl in Hin.
  assert (Hkeys : In (a, b) (dict_keys (pair_entries k nb))).
  { change (a, b) with (fst ((a, b), v)). now apply in_map. }
  apply keys_pair_entries in Hkeys. destruct Hkeys as (-> & Hlt & Hb).
  exists nb. auto.
Qed.

(** X5: on a well-formed graph [build_qubo] raises no KeyError, and the
    variables of the QUBO it returns are the nodes of the graph: every key
    (a, b) has both a and b among the nodes, with a = b or a before b in
    the string order, and (i, i) is a key exactly when i is a node. *)
Theorem build_qubo_keys (G : Graph) :
  graph_okb G = true ->
  exists Q, build_qubo G = Some Q /\
    (forall a b, In (a, b) (dict_keys Q) ->
       In a (nodes G) /\ In b (nodes G) /\ (a = b \/ (a <? b)%string = true)) /\
    (forall i, In (i, i) (dict_keys Q) <-> In i (nodes G)).
Proof.
  intros Hok. apply graph_okb_sound in Hok. destruct Hok as [Hd Hs].
  exists (qubo_closed G). split; [now apply build_qubo_closed|].
  assert (Hkeys : forall a b, In (a, b) (dict_keys (qubo_closed G)) ->
            In a (nodes G) /\ In b (nodes G) /\ (a = b \/ (a <? b)%string = true)).
  { intros a b. unfold qubo_closed, dict_keys. rewrite map_app, in_app_iff.
    fold (dict_keys (diag_entries G)) (dict_keys (offdiag_entries G)).
    intros [Hk|Hk].
    - apply keys_diag_entries in Hk. destruct Hk as [<- Ha]. auto.
    - apply keys_offdiag_entries_nbr in Hk. destruct Hk as (nb & Ha & Hb & Hlt).
      assert (Hget : dict_get a G = Some nb) by (apply dict_get_In; [apply Hd | assumption]).
      split; [|split; [|now right]].
      + change a with (fst (a, nb)). now apply in_map.
      + now apply (nbr_keys_incl G a nb Hs Hget). }
  split; [assumption|]. intros i. split.
  - intros Hk. now apply (Hkeys i i).
  - intros Hi. unfold qubo_closed, dict_keys. rewrite map_app, in_app_iff. left.
    unfold diag_entries. rewrite map_map. simpl.
    unfold nodes, dict_keys in Hi. apply in_map_iff in Hi.
    destruct Hi as ([k nb] & <- & Hin). apply in_map_iff.
    exists (k, nb). auto.
Qed.

Lemma build_qubo_keys_witness :
  exists Q, build_qubo cycle4 = Some Q /\
    (forall a b, In (a, b) (dict_keys Q) ->
       In a (nodes cycle4) /\ In b (nodes cycle4) /\
       (a = b \/ (a <? b)%string = true)) /\
    (forall i, In (i, i) (dict_keys Q) <-> In i (nodes cycle4)).
Proof. apply (build_qubo_keys cycle4). vm_compute. reflexivity. Defined.

(** X6: after any sequence of calls on a new solver, [build_qubo] returns a
    QUBO in which every diagonal coefficient is at most -1 (a node only
    exists as the endpoint of an edge, so no diagonal entry is 0) and every
    off-diagonal coefficient is exactly 2. *)
Theorem reachable_coefficients (calls : list (Node * Node)) :
  exists Q, build_qubo (run calls) = Some Q /\
    forall a b c, dict_get (a, b) Q = Some c ->
      (a = b -> c <= -1) /\ (a <> b -> c = 2).
Proof.
  destruct (graph_ok_run calls) as [Hd Hs].
  destruct (agrees_run calls) as (Hn & Hw & Hdeg).
  exists (qubo_closed (run calls)). split; [now apply build_qubo_closed|].
  intros a b c. rewrite qubo_closed_lookup by apply Hd. unfold qubo_entry.
  destruct (keqb_spec a b) as [->|Hne].
  - destruct (dict_get b (run calls)) as [nb|] eqn:Hb; [|discriminate].
    simpl. intros [= <-]. split; [intros _ | congruence].
    assert (Hnode : In b (nodes (run calls))).
    { apply dict_mem_In. unfold dict_mem. now rewrite Hb. }
    apply Hn in Hnode. apply existsb_exists in Hnode.
    destruct Hnode as (e & He & Hinc).
    assert (Hf : In e (filter (incident b) (spec_edges calls)))
      by (apply filter_In; auto).
    specialize (Hdeg b). unfold nbrs_of in Hdeg. rewrite Hb in Hdeg.
    rewrite Hdeg.
    destruct (filter (incident b) (spec_edges calls)); [contradiction|].
    cbn [List.length]. lia.
  - destruct (a <? b)%string; [|discriminate].
    rewrite Hw. destruct (existsb (same_pair (a, b)) (spec_edges calls));
      [|discriminate].
    simpl. intros [= <-]. split; [contradiction | reflexivity].
Qed.

(** ** The energy of an assignment *)

Lemma sum2_ext (N : list Node) (f g : Node -> Node -> Z) :
  (forall i j, In i N -> In j N -> f i j = g i j) -> sum2 N f = sum2 N g.
Proof.
  intros Hfg. unfold sum2. apply sum_map_ext. intros i Hi.
  apply sum_map_ext. intros j Hj. now apply Hfg.
Qed.

Lemma sum2_add (N : list Node) (f g : Node -> Node -> Z) :
  sum2 N (fun i j => f i j + g i j) = sum2 N f + sum2 N g.
Proof.
  unfold sum2. rewrite <- sum_map_add. apply sum_map_ext. intros i _.
  apply sum_map_add.
Qed.

Lemma sum2_opp (N : list Node) (f : Node -> Node -> Z) :
  sum2 N (fun i j => - f i j) = - sum2 N f.
Proof.
  unfold sum2. rewrite <- sum_map_opp. apply sum_map_ext. intros i _.
  apply sum_map_opp.
Qed.

Lemma sum2_swap (N : list Node) (f : Node -> Node -> Z) :
  sum2 N (fun i j => f j i) = sum2 N f.
Proof. unfold sum2. apply (sum_exchange (fun i j => f j i) N N). Qed.

Lemma sum2_diagonal (N : list Node) (f : Node -> Z) :
  NoDup N -> sum2 N (fun i j => if keqb j i then f i else 0) = sum_Z (map f N).
Proof.
  intros Hnd. unfold sum2. apply sum_map_ext. intros i Hi.
  now apply sum_indicator.
Qed.

Lemma energy_app (Q1 Q2 : Qubo) x : energy (Q1 ++ Q2) x = energy Q1 x + energy Q2 x.
Proof. unfold energy. now rewrite map_app, sum_Z_app. Qed.

Lemma energy_flat_map {A : Type} (f : A -> Qubo) (l : list A) x :
  energy (flat_map f l) x = sum_Z (map (fun e => energy (f e) x) l).
Proof.
  induction l as [|a l IH]; cbn [flat_map map]; [reflexivity|].
  now rewrite energy_app, sum_Z_cons, IH.
Qed.

Lemma energy_pair_entries i nb x :
  energy (pair_entries i nb) x =
  sum_Z (map (fun e => if (i <? fst e)%string
                       then 2 * snd e * x i * x (fst e) else 0) nb).
Proof.
  unfold energy, pair_entries.
  induction nb as [|[j w] nb IH]; cbn [map filter fst snd]; [reflexivity|].
  rewrite sum_Z_cons. destruct (i <? j)%string; cbn [map fst snd].
  - now rewrite sum_Z_cons, IH.
  - rewrite IH. lia.
Qed.

Lemma energy_offdiag_entries G x :
  graph_ok G ->
  energy (offdiag_entries G) x =
  sum2 (nodes G) (fun i j => if (i <? j)%string
                             then 2 * weight0 G i j * x i * x j else 0).
Proof.
  intros Hok. unfold offdiag_entries, sum2. rewrite energy_flat_map.
  transitivity (sum_Z (map (fun e : Node * Nbrs =>
     sum_Z (map (fun j => if (fst e <? j)%string
                          then 2 * weight0 G (fst e) j * x (fst e) * x j
                          else 0) (nodes G))) G)).
  - apply sum_map_ext. intros [i nb] He. cbn [fst snd].
    assert (Hi : dict_get i G = Some nb)
      by (apply dict_get_In; [apply Hok | assumption]).
    rewrite energy_pair_entries.
    transitivity (sum_Z (map (fun j => match dict_get j nb with
        | Some w => if (i <? j)%string then 2 * w * x i * x j else 0
        | None => 0 end) (nodes G))).
    + apply (sum_over_keys
               (fun j w => if (i <? j)%string then 2 * w * x i * x j else 0)
               nb (nodes G));
        [now apply (proj2 (proj1 Hok) i) | apply Hok
        | apply (nbr_keys_incl G i nb); [apply Hok | assumption]].
    + apply sum_map_ext. intros j _. unfold weight0.
      rewrite (weight_get G i j nb Hi).
      destruct (dict_get j nb), (i <? j)%string; lia.
  - unfold nodes at 3, dict_keys. now rewrite map_map.
Qed.

Lemma energy_diag_entries G x :
  graph_ok G -> (forall i, x i = 0 \/ x i = 1) ->
  energy (diag_entries G) x = sum2 (nodes G) (fun i j => - (weight0 G i j * x i)).
Proof.
  intros Hok Hx. unfold energy, diag_entries, sum2. rewrite map_map.
  cbn [fst snd].
  transitivity (sum_Z (map (fun e : Node * Nbrs =>
     sum_Z (map (fun j => - (weight0 G (fst e) j * x (fst e))) (nodes G))) G)).
  - apply sum_map_ext. intros [i nb] He. cbn [fst snd].
    assert (Hi : dict_get i G = Some nb)
      by (apply dict_get_In; [apply Hok | assumption]).
    rewrite (degree_as_sum G i nb Hok Hi).
    rewrite sum_map_opp.
    rewrite (sum_map_ext (fun j => weight0 G i j * x i)
                         (fun j => x i * weight0 G i j))
      by (intros; lia).
    rewrite sum_map_mul.
    change (map (weight0 G i) (nodes G))
      with (map (fun j => weight0 G i j) (nodes G)).
    destruct (Hx i) as [-> | ->]; lia.
  - unfold nodes at 3, dict_keys. now rewrite map_map.
Qed.

Lemma loop_weight_sum2 G x :
  NoDup (nodes G) ->
  loop_weight G x =
  sum2 (nodes G) (fun i j => if keqb j i then weight0 G i i * x i else 0).
Proof.
  intros Hnd. unfold loop_weight.
  now rewrite (sum2_diagonal (nodes G) (fun i => weight0 G i i * x i) Hnd).
Qed.

(** The QUBO is the max-cut objective: its energy at a bit assignment is
    minus the weight of the cut, minus the weight of the self-loops at the
    nodes assigned 1. *)
Lemma sum2_zero (N : list Node) (f : Node -> Node -> Z) :
  (forall i j, In i N -> In j N -> f i j = 0) -> sum2 N f = 0.
Proof.
  intros Hf. rewrite (sum2_ext N f (fun _ _ => 0) Hf). unfold sum2.
  rewrite (sum_map_ext _ (fun _ => 0)); [apply sum_map_zero|].
  intros i _. apply sum_map_zero.
Qed.

Lemma energy_cut G x :
  graph_ok G -> (forall i, x i = 0 \/ x i = 1) ->
  energy (qubo_closed G) x = - cut_weight G x - loop_weight G x.
Proof.
  intros Hok Hx. destruct Hok as [Hd Hs].
  pose (N := nodes G).
  pose (fd := fun i j : Node => - (weight0 G i j * x i)).
  pose (fo := fun i j : Node =>
          if (i <? j)%string then 2 * weight0 G i j * x i * x j else 0).
  pose (fc := fun i j : Node =>
          if (i <? j)%string
          then weight0 G i j * (if Z.eqb (x i) (x j) then 0 else 1) else 0).
  pose (fl := fun i j : Node => if keqb j i then weight0 G i i * x i else 0).
  pose (fa := fun i j : Node => - (upper G i j * x i) - fl i j).
  pose (fb := fun i j : Node => - (upper G i j * x j)).
  assert (Ed : energy (diag_entries G) x = sum2 N fd)
    by (apply energy_diag_entries; [split|]; assumption).
  assert (Eo : energy (offdiag_entries G) x = sum2 N fo)
    by (apply energy_offdiag_entries; split; assumption).
  assert (Ec : cut_weight G x = sum2 N fc) by reflexivity.
  assert (El : loop_weight G x = sum2 N fl)
    by (apply loop_weight_sum2, Hd).
  assert (H1 : sum2 N fd = sum2 N fa + sum2 N fb).
  { rewrite <- (sum2_swap N fb), <- (sum2_add N fa (fun i j => fb j i)).
    apply sum2_ext. intros i j _ _. unfold fd, fa, fb, fl, upper.
    destruct (keqb_spec j i) as [->|Hne].
    - rewrite ltb_irrefl. lia.
    - destruct (ltb_total j i Hne) as [Hlt|Hlt];
        rewrite Hlt, (ltb_asym _ _ Hlt).
      + rewrite (weight0_sym G i j Hs). lia.
      + lia. }
  assert (H2 : sum2 N (fun i j => (fa i j + fb i j) + (fo i j + (fc i j + fl i j))) = 0).
  { apply sum2_zero. intros i j _ _. unfold fa, fb, fo, fc, fl, upper.
    destruct (i <? j)%string.
    - destruct (Hx i) as [-> | ->], (Hx j) as [-> | ->]; simpl;
        destruct (keqb j i); lia.
    - destruct (keqb j i); lia. }
  rewrite (sum2_add N (fun i j => fa i j + fb i j)
                      (fun i j => fo i j + (fc i j + fl i j))) in H2.
  rewrite (sum2_add N fa fb) in H2.
  rewrite (sum2_add N fo (fun i j => fc i j + fl i j)) in H2.
  rewrite (sum2_add N fc fl) in H2.
  unfold qubo_closed. rewrite energy_app, Ed, Eo, Ec, El, H1. lia.
Qed.

Lemma bit_of_bits (s : Sample) :
  bits_okb s = true -> forall i, bit_of s i = 0 \/ bit_of s i = 1.
Proof.
  intros Hs i. unfold bit_of. destruct (dict_get i s) as [b|] eqn:E; [|now left].
  apply dict_get_Some_In in E. unfold bits_okb in Hs.
  rewrite forallb_forall in Hs. apply Hs in E. simpl in E.
  apply orb_true_iff in E. rewrite !Z.eqb_eq in E. exact E.
Qed.

Lemma loop_weight_none G x : (forall i, weight G i i = None) -> loop_weight G x = 0.
Proof.
  intros Hloop. unfold loop_weight.
  rewrite (sum_map_ext _ (fun _ => 0)); [apply sum_map_zero|].
  intros i _. unfold weight0. now rewrite Hloop.
Qed.

(** X7: the QUBO is the max-cut objective.  On a well-formed graph, the
    energy of the returned QUBO at a 0/1 sample is minus the total weight
    of the edges whose endpoints got different bits, minus the weight of
    the self-loops at nodes with bit 1; without self-loops it is exactly
    minus the weight of the cut. *)
Theorem build_qubo_max_cut (G : Graph) (s : Sample) :
  graph_okb G = true -> bits_okb s = true ->
  exists Q, build_qubo G = Some Q /\
    energy Q (bit_of s) = - cut_weight G (bit_of s) - loop_weight G (bit_of s) /\
    (self_loop_freeb G = true -> energy Q (bit_of s) = - cut_weight G (bit_of s)).
Proof.
  intros Hok Hs. apply graph_okb_sound in Hok.
  exists (qubo_closed G). split; [apply build_qubo_closed, Hok|].
  assert (E : energy (qubo_closed G) (bit_of s)
              = - cut_weight G (bit_of s) - loop_weight G (bit_of s))
    by (apply energy_cut; [assumption | now apply bit_of_bits]).
  split; [assumption|]. intros Hfree. rewrite E.
  rewrite loop_weight_none; [lia|].
  apply self_loop_freeb_sound; [apply Hok | assumption].
Qed.

Lemma build_qubo_max_cut_witness :
  exists Q, build_qubo cycle4 = Some Q /\
    energy Q (bit_of sampleABCD)
      = - cut_weight cycle4 (bit_of sampleABCD) - loop_weight cycle4 (bit_of sampleABCD) /\
    (self_loop_freeb cycle4 = true ->
     energy Q (bit_of sampleABCD) = - cut_weight cycle4 (bit_of sampleABCD)).
Proof.
  apply (build_qubo_max_cut cycle4 sampleABCD); vm_compute; reflexivity.
Defined.

(** X8: the two groups are interchangeable.  On a well-formed graph
    without self-loops, turning every bit of a 0/1 sample over leaves the
    energy of the QUBO unchanged. *)
Theorem energy_flip_invariant (G : Graph) (s : Sample) :
  graph_okb G = true -> self_loop_freeb G = true -> bits_okb s = true ->
  exists Q, build_qubo G = Some Q /\
    energy Q (fun i => 1 - bit_of s i) = energy Q (bit_of s).
Proof.
  intros Hok Hfree Hs. apply graph_okb_sound in Hok.
  assert (Hloop : forall i, weight G i i = None)
    by (apply self_loop_freeb_sound; [apply Hok | assumption]).
  pose proof (bit_of_bits s Hs) as Hb.
  exists (qubo_closed G). split; [apply build_qubo_closed, Hok|].
  rewrite (energy_cut G (bit_of s) Hok Hb).
  rewrite (energy_cut G (fun i => 1 - bit_of s i) Hok)
    by (intros i; destruct (Hb i) as [-> | ->]; [right | left]; reflexivity).
  rewrite !loop_weight_none by assumption.
  f_equal. f_equal. apply (sum2_ext (nodes G)). intros i j _ _.
  destruct (i <? j)%string; [|reflexivity]. f_equal.
  destruct (Z.eqb_spec (1 - bit_of s i) (1 - bit_of s j)),
           (Z.eqb_spec (bit_of s i) (bit_of s j)); lia.
Qed.

Lemma energy_flip_invariant_witness :
  exists Q, build_qubo cycle4 = Some Q /\
    energy Q (fun i => 1 - bit_of sampleABCD i) = energy Q (bit_of sampleABCD).
Proof.
  apply (energy_flip_invariant cycle4 sampleABCD); vm_compute; reflexivity.
Defined.

Lemma sum_map_le {A : Type} (f g : A -> Z) (l : list A) :
  (forall a, In a l -> f a <= g a) -> sum_Z (map f l) <= sum_Z (map g l).
Proof.
  induction l as [|a l IH]; cbn [map]; intros Hfg; [unfold sum_Z; simpl; lia|].
  rewrite !sum_Z_cons. pose proof (Hfg a (or_introl eq_refl)).
  assert (sum_Z (map f l) <= sum_Z (map g l))
    by (apply IH; intros b Hb; apply Hfg; now right).
  lia.
Qed.

Lemma sum2_le (N : list Node) (f g : Node -> Node -> Z) :
  (forall i j, f i j <= g i j) -> sum2 N f <= sum2 N g.
Proof.
  intros Hfg. unfold sum2. apply sum_map_le. intros i _.
  apply sum_map_le. intros j _. apply Hfg.
Qed.

Lemma weight0_run_01 calls i j :
  weight0 (run calls) i j = 0 \/ weight0 (run calls) i j = 1.
Proof.
  unfold weight0, run. rewrite weight_run_from.
  destruct (existsb (same_pair (i, j)) calls); [now right | now left].
Qed.

(** X9: after any sequence of calls, the energy of the returned QUBO at a
    0/1 sample is never positive and never below minus the number of
    edges (the total weight of the edges between distinct nodes plus that
    of the self-loops). *)
Theorem reachable_energy_bounds (calls : list (Node * Node)) (s : Sample) :
  bits_okb s = true ->
  exists Q, build_qubo (run calls) = Some Q /\
    - (total_weight (run calls) + loop_weight (run calls) (fun _ => 1))
      <= energy Q (bit_of s) <= 0.
Proof.
  intros Hs. pose proof (graph_ok_run calls) as Hok.
  pose proof (bit_of_bits s Hs) as Hb.
  exists (qubo_closed (run calls)). split; [apply build_qubo_closed, Hok|].
  rewrite (energy_cut (run calls) (bit_of s) Hok Hb).
  set (G := run calls).
  assert (Hc0 : 0 <= cut_weight G (bit_of s)).
  { rewrite <- (sum2_zero (nodes G) (fun _ _ => 0)) by reflexivity.
    apply sum2_le. intros i j.
    destruct (i <? j)%string; [|lia].
    destruct (weight0_run_01 calls i j) as [E|E]; fold G in E; rewrite E;
      destruct (bit_of s i =? bit_of s j); lia. }
  assert (Hc1 : cut_weight G (bit_of s) <= total_weight G).
  { apply sum2_le. intros i j.
    destruct (i <? j)%string; [|lia].
    destruct (weight0_run_01 calls i j) as [E|E]; fold G in E; rewrite E;
      destruct (bit_of s i =? bit_of s j); lia. }
  assert (Hl0 : 0 <= loop_weight G (bit_of s)).
  { rewrite <- (sum_map_zero (nodes G)). apply sum_map_le. intros i _.
    destruct (weight0_run_01 calls i i) as [E|E]; fold G in E; rewrite E;
      destruct (Hb i) as [-> | ->]; lia. }
  assert (Hl1 : loop_weight G (bit_of s) <= loop_weight G (fun _ => 1)).
  { apply sum_map_le. intros i _.
    destruct (weight0_run_01 calls i i) as [E|E]; fold G in E; rewrite E;
      destruct (Hb i) as [-> | ->]; lia. }
  lia.
Qed.

Lemma reachable_energy_bounds_witness :
  let calls := [("A", "B"); ("B", "C"); ("C", "D"); ("D", "A")]%string in
  exists Q, build_qubo (run calls) = Some Q /\
    - (total_weight (run calls) + loop_weight (run calls) (fun _ => 1))
      <= energy Q (bit_of sampleABCD) <= 0.
Proof.
  apply (reachable_energy_bounds
           [("A", "B"); ("B", "C"); ("C", "D"); ("D", "A")]%string sampleABCD).
  vm_compute. reflexivity.
Defined.

(** ** The order of the calls does not matter *)

Lemma same_pair_iff (c e : Node * Node) :
  same_pair c e = true <-> c = e \/ c = (snd e, fst e).
Proof.
  unfold same_pair. now rewrite orb_true_iff, !keqb_eq.
Qed.

Lemma requested_iff (calls : list (Node * Node)) (c : Node * Node) :
  existsb (same_pair c) calls = true <->
  exists e, In e calls /\ (c = e \/ c = (snd e, fst e)).
Proof.
  rewrite existsb_exists. split; intros (e & He & Hs); exists e;
    (split; [assumption | now apply same_pair_iff]).
Qed.

Lemma covers_requested (calls1 calls2 : list (Node * Node)) (c : Node * Node) :
  covers calls1 calls2 = true ->
  existsb (same_pair c) calls1 = true -> existsb (same_pair c) calls2 = true.
Proof.
  unfold covers. rewrite forallb_forall. intros Hcov Hc.
  apply requested_iff in Hc. destruct Hc as (e & He & Hce).
  specialize (Hcov e He). apply requested_iff in Hcov.
  destruct Hcov as (e' & He' & Hee'). apply requested_iff. exists e'.
  split; [assumption|]. destruct e as [a b], e' as [a' b']. simpl in *.
  destruct Hce as [-> | ->], Hee' as [[= -> ->] | [= -> ->]]; auto.
Qed.

Lemma same_requests (calls1 calls2 : list (Node * Node)) (c : Node * Node) :
  covers calls1 calls2 = true -> covers calls2 calls1 = true ->
  existsb (same_pair c) calls1 = existsb (same_pair c) calls2.
Proof.
  intros H12 H21.
  destruct (existsb (same_pair c) calls1) eqn:E1,
           (existsb (same_pair c) calls2) eqn:E2; try reflexivity.
  - apply (covers_requested calls1 calls2 c H12) in E1. congruence.
  - apply (covers_requested calls2 calls1 c H21) in E2. congruence.
Qed.

Lemma mentions_requested (calls : list (Node * Node)) (i : Node) :
  mentions calls i = true <-> exists j, existsb (same_pair (i, j)) calls = true.
Proof.
  unfold mentions. rewrite existsb_exists. split.
  - intros ([a b] & He & Hi). unfold incident in Hi. simpl in Hi.
    apply orb_true_iff in Hi. rewrite !keqb_eq in Hi.
    destruct Hi as [-> | ->].
    + exists b. apply requested_iff. exists (a, b). auto.
    + exists a. apply requested_iff. exists (a, b). auto.
  - intros (j & Hj). apply requested_iff in Hj.
    destruct Hj as ([a b] & He & Hc). exists (a, b). split; [assumption|].
    unfold incident. simpl. apply orb_true_iff. rewrite !keqb_eq.
    destruct Hc as [[= -> ->] | [= -> ->]]; auto.
Qed.

Lemma sum_same_elements (f : Node -> Z) (l1 l2 : list Node) :
  NoDup l1 -> NoDup l2 -> (forall i, In i l1 <-> In i l2) ->
  sum_Z (map f l1) = sum_Z (map f l2).
Proof.
  intros H1 H2 Hsame.
  pose (nb := map (fun j => (j, f j)) l1 : Nbrs).
  assert (Hkeys : dict_keys nb = l1).
  { unfold nb, dict_keys. rewrite map_map. simpl. apply map_id. }
  transitivity (sum_Z (map (fun e : Node * Z => snd e) nb)).
  - unfold nb. now rewrite map_map.
  - transitivity (sum_Z (map (fun j => match dict_get j nb with
                                       | Some w => w | None => 0 end) l2)).
    + apply (sum_over_keys (fun _ w => w) nb l2).
      * now rewrite Hkeys.
      * assumption.
      * rewrite Hkeys. intros i Hi. now apply Hsame.
    + apply sum_map_ext. intros j Hj. apply Hsame in Hj.
      rewrite (dict_get_In nb j (f j)); [reflexivity | now rewrite Hkeys |].
      unfold nb. apply in_map_iff. exists j. auto.
Qed.

Lemma qubo_entry_by_weights (G1 G2 : Graph) a b :
  graph_ok G1 -> graph_ok G2 ->
  (forall i, In i (nodes G1) <-> In i (nodes G2)) ->
  (forall i j, weight G1 i j = weight G2 i j) ->
  qubo_entry G1 a b = qubo_entry G2 a b.
Proof.
  intros Hok1 Hok2 Hn Hw. unfold qubo_entry.
  destruct (keqb a b); [|now rewrite Hw].
  destruct (dict_get a G1) as [nb1|] eqn:E1, (dict_get a G2) as [nb2|] eqn:E2;
    simpl.
  - f_equal. f_equal.
    rewrite (degree_as_sum G1 a nb1 Hok1 E1), (degree_as_sum G2 a nb2 Hok2 E2).
    rewrite (sum_same_elements (fun j => weight0 G1 a j) (nodes G1) (nodes G2));
      [| apply Hok1 | apply Hok2 | assumption].
    apply sum_map_ext. intros j _. unfold weight0. now rewrite Hw.
  - exfalso. assert (Ha : In a (nodes G1)).
    { apply dict_mem_In. unfold dict_mem. now rewrite E1. }
    apply Hn, dict_mem_In in Ha. unfold dict_mem in Ha. now rewrite E2 in Ha.
  - exfalso. assert (Ha : In a (nodes G2)).
    { apply dict_mem_In. unfold dict_mem. now rewrite E2. }
    apply Hn, dict_mem_In in Ha. unfold dict_mem in Ha. now rewrite E1 in Ha.
  - reflexivity.
Qed.

(** X10: the QUBO depends only on which unordered pairs were requested.
    Two call lists that request the same pairs, in any order, any
    direction and any number of times, lead to QUBOs that are equal as
    dictionaries. *)
Theorem build_qubo_order_independent (calls1 calls2 : list (Node * Node)) :
  covers calls1 calls2 = true -> covers calls2 calls1 = true ->
  exists Q1 Q2,
    build_qubo (run calls1) = Some Q1 /\ build_qubo (run calls2) = Some Q2 /\
    dict_equiv Q1 Q2.
Proof.
  intros H12 H21.
  pose proof (graph_ok_run calls1) as Hok1.
  pose proof (graph_ok_run calls2) as Hok2.
  exists (qubo_closed (run calls1)), (qubo_closed (run calls2)).
  split; [apply build_qubo_closed, Hok1|].
  split; [apply build_qubo_closed, Hok2|].
  intros [a b]. rewrite !qubo_closed_lookup by (apply Hok1 || apply Hok2).
  apply qubo_entry_by_weights; try assumption.
  - intros i. unfold run. rewrite !nodes_run_from, !mentions_requested.
    split; (intros [[]|(j & Hj)]; right; exists j).
    + now rewrite <- (same_requests calls1 calls2 (i, j) H12 H21).
    + now rewrite (same_requests calls1 calls2 (i, j) H12 H21).
  - intros i j. unfold run. rewrite !weight_run_from.
    now rewrite (same_requests calls1 calls2 (i, j) H12 H21).
Qed.

Lemma build_qubo_order_independent_witness :
  let calls1 := [("A", "B"); ("B", "C"); ("C", "A")]%string in
  let calls2 := [("C", "B"); ("A", "C"); ("B", "A"); ("B", "C")]%string in
  exists Q1 Q2,
    build_qubo (run calls1) = Some Q1 /\ build_qubo (run calls2) = Some Q2 /\
    dict_equiv Q1 Q2.
Proof.
  apply (build_qubo_order_independent
           [("A", "B"); ("B", "C"); ("C", "A")]%string
           [("C", "B"); ("A", "C"); ("B", "A"); ("B", "C")]%string);
    vm_compute; reflexivity.
Defined.

(** ** [load_config] *)

Open Scope string_scope.

(** X11: [load_config] succeeds exactly when DWAVE_TOKEN is set to a
    non-empty string.  The configuration it returns carries that token
    unchanged (never an empty one); the endpoint and the solver are the
    values of DWAVE_ENDPOINT and DWAVE_SOLVER when these are set, even to
    the empty string, and the two fixed defaults otherwise.  When it fails,
    the error is the ValueError about DWAVE_TOKEN. *)
Theorem load_config_result (env : Env) :
  ((exists c, load_config env = inr c) <->
   (exists t, env "DWAVE_TOKEN" = Some t /\ t <> EmptyString)) /\
  (forall c, load_config env = inr c ->
     env "DWAVE_TOKEN" = Some (token c) /\ token c <> EmptyString /\
     endpoint c = match env "DWAVE_ENDPOINT" with
                  | Some v => v
                  | None => "https://cloud.dwavesys.com/sapi"
                  end /\
     solver c = match env "DWAVE_SOLVER" with
                | Some v => v
                | None => "Advantage_system4.1"
                end) /\
  (forall e, load_config env = inl e ->
     e = ValueError "DWAVE_TOKEN not found in .env file").
Proof.
  unfold load_config, getenv.
  destruct (env "DWAVE_TOKEN") as [[|ch t]|]; simpl.
  - split; [|split].
    + split; [intros (c & Hc); discriminate | intros (t & [= <-] & Ht); congruence].
    + intros c Hc. discriminate.
    + now intros e [= <-].
  - split; [|split].
    + split; [intros _|intros _; eexists; reflexivity].
      exists (String ch t). split; [reflexivity | discriminate].
    + intros c [= <-]. simpl. repeat split; discriminate.
    + intros e He. discriminate.
  - split; [|split].
    + split; [intros (c & Hc); discriminate | intros (t & Ht & _); discriminate].
    + intros c Hc. discriminate.
    + now intros e [= <-].
Qed.

(** ** [solve] and [main] *)

Lemma solve_run_trace {Energy : Type} (svc : Services Energy)
    (config : Config) (calls : list (Node * Node)) (num_reads : nat) :
  exists Q, build_qubo (run calls) = Some Q /\
    solve svc config (run calls) num_reads =
    ([Submit Q num_reads], first_sample svc config Q num_reads).
Proof.
  exists (qubo_closed (run calls)).
  assert (HQ : build_qubo (run calls) = Some (qubo_closed (run calls)))
    by (apply build_qubo_closed, graph_ok_run).
  split; [assumption|]. unfold solve. rewrite HQ. unfold lift, emit, mbind.
  reflexivity.
Qed.

(** X12: on the graph reached by any sequence of calls, [solve] fails at no
    local step: it sends the service exactly one request, carrying the QUBO
    that [build_qubo] returns and the given number of reads, and its own
    outcome is the outcome of the service, a best sample with its energy or
    the exception raised. *)
Theorem solve_forwards {Energy : Type} (svc : Services Energy)
    (config : Config) (calls : list (Node * Node)) (num_reads : nat) :
  exists Q, build_qubo (run calls) = Some Q /\
    solve svc config (run calls) num_reads =
    ([Submit Q num_reads], first_sample svc config Q num_reads).
Proof.
  destruct (graph_ok_run calls) as [Hd _].
  exists (qubo_closed (run calls)).
  split; [now apply build_qubo_closed|].
  unfold solve. rewrite (build_qubo_closed (run calls) Hd).
  unfold lift, emit, mbind. reflexivity.
Qed.

Lemma for_each_print {A : Type} (f : A -> string) (l : list A) :
  for_each l (fun a => emit (Print (f a))) = (map (fun a => Print (f a)) l, inr tt).
Proof.
  induction l as [|a l IH]; cbn [for_each map]; [reflexivity|].
  rewrite IH. reflexivity.
Qed.

Lemma print_results_trace {Energy : Type} (svc : Services Energy)
    (solution : Sample) (energy : Energy) :
  print_results svc solution energy =
  (map Print (result_lines svc solution energy), inr tt).
Proof.
  unfold print_results, result_lines. cbn [mbind emit].
  change (for_each solution
            (fun item => emit (Print (fst item ++ ": " ++ group_label (snd item)))))
    with (for_each solution (fun a => emit (Print (result_line a)))).
  rewrite (for_each_print result_line solution).
  cbn [mbind emit app map]. rewrite map_app, map_map. reflexivity.
Qed.

Lemma main_after_config {Energy : Type} (svc : Services Energy)
    (env : Env) (config : Config) :
  load_config env = inr config ->
  main svc env =
  fst (try_except
         (G <~ init svc config ;;
          let G := run_from G example_trades in
          r <~ solve svc config G 1000 ;;
          print_results svc (fst r) (snd r) ;;;
          visualize_solution svc G (fst r) ;;;
          emit (Print (newline ++ "Visualization saved as 'trade_network_solution.png'")))
         handler).
Proof.
  intros Hcfg. unfold main, main_body. rewrite Hcfg. unfold lift.
  cbn [mbind]. destruct (_ <~ init svc config ;; _) as [t [e|[]]];
    cbn [try_except app fst]; [destruct (handler e)|]; reflexivity.
Qed.

Lemma handler_line (e : exn) : handler e = emit (Print (error_line e)).
Proof. now destruct e. Qed.

(** X13: when the configuration loads but opening the sampler raises, the
    whole run of [main] is the connection attempt followed by one error
    line: "Configuration error: ..." for a ValueError, "An error occurred:
    ..." for any other exception.  Nothing is submitted, no result is
    printed and no figure is saved. *)
Theorem main_connection_failure {Energy : Type} (svc : Services Energy)
    (env : Env) (config : Config) (e : exn) :
  load_config env = inr config ->
  connect svc config = Some e ->
  main svc env = [Connect config; Print (error_line e)].
Proof.
  intros Hcfg Hconn. rewrite (main_after_config svc env config Hcfg).
  unfold init. rewrite Hconn. cbn [check raise emit mbind try_except app].
  rewrite handler_line. reflexivity.
Qed.

Lemma main_connection_failure_witness :
  main refusing_services env_with_token =
  [Connect demo_config; Print (error_line (OtherException "no route to host"))].
Proof.
  apply (main_connection_failure refusing_services env_with_token demo_config
           (OtherException "no route to host")); reflexivity.
Defined.

(** X14: when the service raises on the submission, the run of [main] is
    the connection, the one submission of the QUBO of the four example
    trades with 1000 reads, and one error line; a ValueError raised by the
    service is reported as a configuration error.  No result is printed and
    no figure is saved. *)
Theorem main_submission_failure {Energy : Type} (svc : Services Energy)
    (env : Env) (config : Config) (e : exn) :
  load_config env = inr config ->
  connect svc config = None ->
  (forall Q, first_sample svc config Q 1000 = inl e) ->
  exists Q, build_qubo (run example_trades) = Some Q /\
    main svc env = [Connect config; Submit Q 1000; Print (error_line e)].
Proof.
  intros Hcfg Hconn Hfail.
  destruct (solve_run_trace svc config example_trades 1000) as (Q & HQ & Hsolve).
  exists Q. split; [assumption|].
  rewrite (main_after_config svc env config Hcfg).
  unfold init. rewrite Hconn. cbn [check ret emit mbind app].
  change (run_from empty_graph example_trades) with (run example_trades).
  rewrite Hsolve, Hfail. cbn [mbind try_except app].
  rewrite handler_line. reflexivity.
Qed.

Lemma main_submission_failure_witness :
  exists Q, build_qubo (run example_trades) = Some Q /\
    main failing_services env_with_token =
    [Connect demo_config; Submit Q 1000;
     Print (error_line (ValueError "no embedding found"))].
Proof.
  apply (main_submission_failure failing_services env_with_token demo_config
           (ValueError "no embedding found")).
  - reflexivity.
  - reflexivity.
  - intros Q. reflexivity.
Defined.

(** X15: a run of [main] in which every service answers: the connection,
    one submission of the QUBO of the example trades with 1000 reads, the
    report (two header lines, one line per item of the best sample in the
    order of the sample, the energy line), the figure saved under
    trade_network_solution.png, and the closing line. *)
Theorem main_success {Energy : Type} (svc : Services Energy)
    (env : Env) (config : Config) (solution : Sample) (energy : Energy) :
  load_config env = inr config ->
  connect svc config = None ->
  (forall Q, first_sample svc config Q 1000 = inr (solution, energy)) ->
  savefig svc (run example_trades) solution = None ->
  exists Q, build_qubo (run example_trades) = Some Q /\
    main svc env =
    ([Connect config; Submit Q 1000]
     ++ map Print (result_lines svc solution energy)
     ++ [SaveFig "trade_network_solution.png";
         Print (newline ++ "Visualization saved as 'trade_network_solution.png'")%string])%list.
Proof.
  intros Hcfg Hconn Hsample Hfig.
  destruct (solve_run_trace svc config example_trades 1000) as (Q & HQ & Hsolve).
  exists Q. split; [assumption|].
  rewrite (main_after_config svc env config Hcfg).
  unfold init. rewrite Hconn. cbn [check ret emit mbind app].
  change (run_from empty_graph example_trades) with (run example_trades).
  rewrite Hsolve, Hsample. cbn [mbind fst snd app].
  rewrite print_results_trace. unfold visualize_solution. rewrite Hfig.
  cbn [check ret emit mbind try_except app fst].
  rewrite ?app_nil_r. reflexivity.
Qed.

Lemma main_success_witness :
  exists Q, build_qubo (run example_trades) = Some Q /\
    main demo_services env_with_token =
    ([Connect demo_config; Submit Q 1000]
     ++ map Print (result_lines demo_services sampleABCD (-4)%Z)
     ++ [SaveFig "trade_network_solution.png";
         Print (newline ++ "Visualization saved as 'trade_network_solution.png'")%string])%list.
Proof.
  apply (main_success demo_services env_with_token demo_config sampleABCD (-4)%Z).
  - reflexivity.
  - reflexivity.
  - intros Q. reflexivity.
  - reflexivity.
Defined.

(** X16: when the plot raises, the report has already been printed: the
    run of [main] is the connection, the submission, the whole report and
    then one error line; no figure is recorded and the closing line is not
    printed. *)
Theorem main_plot_failure {Energy : Type} (svc : Services Energy)
    (env : Env) (config : Config) (solution : Sample) (energy : Energy) (e : exn) :
  load_config env = inr config ->
  connect svc config = None ->
  (forall Q, first_sample svc config Q 1000 = inr (solution, energy)) ->
  savefig svc (run example_trades) solution = Some e ->
  exists Q, build_qubo (run example_trades) = Some Q /\
    main svc env =
    ([Connect config; Submit Q 1000]
     ++ map Print (result_lines svc solution energy)
     ++ [Print (error_line e)])%list.
Proof.
  intros Hcfg Hconn Hsample Hfig.
  destruct (solve_run_trace svc config example_trades 1000) as (Q & HQ & Hsolve).
  exists Q. split; [assumption|].
  rewrite (main_after_config svc env config Hcfg).
  unfold init. rewrite Hconn. cbn [check ret emit mbind app].
  change (run_from empty_graph example_trades) with (run example_trades).
  rewrite Hsolve, Hsample. cbn [mbind fst snd app].
  rewrite print_results_trace. unfold visualize_solution. rewrite Hfig.
  cbn [check raise emit mbind try_except app fst].
  rewrite handler_line. cbn [emit fst app]. rewrite ?app_nil_r. reflexivity.
Qed.

Lemma main_plot_failure_witness :
  exists Q, build_qubo (run example_trades) = Some Q /\
    main plotless_services env_with_token =
    ([Connect demo_config; Submit Q 1000]
     ++ map Print (result_lines plotless_services sampleABCD (-4)%Z)
     ++ [Print (error_line (OtherException "read-only file system"))])%list.
Proof.
  apply (main_plot_failure plotless_services env_with_token demo_config
           sampleABCD (-4)%Z (OtherException "read-only file system")).
  - reflexivity.
  - reflexivity.
  - intros Q. reflexivity.
  - reflexivity.
Defined.

Close Scope string_scope.

(** ** Insertion order *)

Lemma dict_mem_existsb (G : Graph) (i : Node) :
  dict_mem i G = existsb (keqb i) (nodes G).
Proof.
  destruct (dict_mem i G) eqn:E; symmetry.
  - apply existsb_keqb. now apply dict_mem_In.
  - destruct (existsb (keqb i) (nodes G)) eqn:E'; [|reflexivity].
    apply existsb_keqb, dict_mem_In in E'. congruence.
Qed.

Lemma nodes_ensure_note (G : Graph) (i : Node) :
  nodes (ensure_node i G) = note_first (nodes G) i.
Proof.
  rewrite nodes_ensure_node. unfold note_first. now rewrite dict_mem_existsb.
Qed.

Lemma nodes_run_from_order calls : forall G,
  nodes (run_from G calls) = fold_left note_first (endpoints calls) (nodes G).
Proof.
  induction calls as [|[a b] calls IH]; intros G; [reflexivity|].
  cbn [run_from fold_left endpoints flat_map app fst snd].
  fold (run_from (add_trade_desire G a b) calls). fold (endpoints calls).
  rewrite IH. unfold add_trade_desire.
  now rewrite nodes_add_edge, !nodes_ensure_note.
Qed.

(** X17: the nodes of the graph are listed in the order in which the calls
    first name them, the first argument of a call before the second; this
    is the order of [G.nodes], hence of the diagonal entries of the QUBO. *)
Theorem nodes_in_order_of_first_mention (calls : list (Node * Node)) :
  nodes (run calls) = first_seen (endpoints calls) /\
  exists Q, build_qubo (run calls) = Some Q /\
    firstn (List.length (nodes (run calls))) (dict_keys Q)
    = map (fun i => (i, i)) (first_seen (endpoints calls)).
Proof.
  assert (Hn : nodes (run calls) = first_seen (endpoints calls))
    by apply (nodes_run_from_order calls empty_graph).
  split; [assumption|].
  exists (qubo_closed (run calls)).
  split; [apply build_qubo_closed, graph_ok_run|].
  rewrite <- Hn. unfold qubo_closed, dict_keys. rewrite map_app.
  assert (Hd : map fst (diag_entries (run calls))
               = map (fun i => (i, i)) (nodes (run calls))).
  { unfold diag_entries, nodes, dict_keys. now rewrite !map_map. }
  rewrite Hd.
  replace (List.length (nodes (run calls)))
    with (List.length (map (fun i : Node => (i, i)) (nodes (run calls))))
    by apply length_map.
  rewrite firstn_app, firstn_all, Nat.sub_diag. simpl. apply app_nil_r.
Qed.

(** ** The loops of [build_qubo] against the closed form *)

(** X18: on a well-formed graph, the dictionary that the two nested loops
    of [build_qubo] build, with its in-place updates, is exactly: one
    entry (i, i) per node i, in node order, holding minus the sum of the
    weights stored at i; then, node by node and neighbour by neighbour,
    one entry (i, j) holding twice the weight for each neighbour j that
    comes after i in the string order.  It has one entry per node plus one
    per such pair, and no key twice. *)
Theorem build_qubo_is_closed_form (G : Graph) :
  graph_okb G = true ->
  build_qubo G = Some (diag_entries G ++ offdiag_entries G) /\
  List.length (diag_entries G) = List.length (nodes G) /\
  NoDup (dict_keys (diag_entries G ++ offdiag_entries G)).
Proof.
  intros Hok. apply graph_okb_sound in Hok. split; [|split].
  - apply (build_qubo_closed G), Hok.
  - unfold diag_entries, nodes, dict_keys. now rewrite !length_map.
  - apply (NoDup_keys_qubo_closed G), Hok.
Qed.

Lemma build_qubo_is_closed_form_witness :
  build_qubo cycle4 = Some (diag_entries cycle4 ++ offdiag_entries cycle4) /\
  List.length (diag_entries cycle4) = List.length (nodes cycle4) /\
  NoDup (dict_keys (diag_entries cycle4 ++ offdiag_entries cycle4)).
Proof. apply (build_qubo_is_closed_form cycle4). vm_compute. reflexivity. Defined.
